(** * Type wrappers of graphql-js: [src/type/wrappers.js]

    A shallow embedding of the memoising wrapper constructors
    [GraphQLList], [GraphQLNonNull] and of [wrapType], over an explicit
    JavaScript store: type objects live in a heap and are compared by
    address (reference equality), the [WeakMap] [wrapperCache] maps the
    address of an inner type to the address of its [TypeCacheMap], and
    the [TypeCacheMap] objects are mutated in place. *)

From Stdlib Require Import Ascii String.
From stdpp Require Import base option list gmap strings.

Open Scope string_scope.
Open Scope list_scope.

(** ** Values and objects *)

(** An address in the store. *)
Abbreviation loc := nat (only parsing).

(** The JavaScript values the functions of this module can be handed:
    [undefined], [null], or a reference to an object. *)
Inductive value :=
| VUndefined
| VNull
| VRef (l : loc).

(** The six named type classes of [definition.js]. *)
Inductive NamedKind :=
| Scalar | Object | Interface | Union | Enum | InputObject.

(** [type CacheTypeKey = ']' | '!'] *)
Inductive CacheTypeKey :=
| KeyList      (* ']' *)
| KeyNonNull.  (* '!' *)

(** The objects of the store: an instance of one of the named type
    classes (with its [name]), an instance of [GraphQLList] or of
    [GraphQLNonNull] (with its [ofType] field), or any other object
    (a class, [{ what: 'is this' }], ...). *)
Inductive obj :=
| ONamed (k : NamedKind) (name : string)
| OList (ofType : value)
| ONonNull (ofType : value)
| OOther.

(** [type TypeCacheMap = { [CacheTypeKey]: GraphQLType }]: a plain object
    with at most the two properties [']'] and ['!']; a property that was
    never written reads as [undefined]. *)
Record TypeCacheMap := mkTypeCacheMap {
  prop_list : value;
  prop_nonNull : value;
}.

Definition getProp (m : TypeCacheMap) (specChar : CacheTypeKey) : value :=
  match specChar with
  | KeyList => prop_list m
  | KeyNonNull => prop_nonNull m
  end.

Definition setProp (m : TypeCacheMap) (specChar : CacheTypeKey) (v : value)
  : TypeCacheMap :=
  match specChar with
  | KeyList => mkTypeCacheMap v (prop_nonNull m)
  | KeyNonNull => mkTypeCacheMap (prop_list m) v
  end.

(** ToBoolean, as used by [!x] and [if (x)]. *)
Definition truthy (v : value) : bool :=
  match v with
  | VRef _ => true
  | VUndefined | VNull => false
  end.

#[global] Instance value_eq_dec : EqDecision value.
Proof. solve_decision. Defined.
#[global] Instance NamedKind_eq_dec : EqDecision NamedKind.
Proof. solve_decision. Defined.
#[global] Instance CacheTypeKey_eq_dec : EqDecision CacheTypeKey.
Proof. solve_decision. Defined.
#[global] Instance obj_eq_dec : EqDecision obj.
Proof. solve_decision. Defined.

(** ** The store *)

(** [heap]: the type objects, append-only (their fields are never
    reassigned by this module).  [cacheMaps]: the [TypeCacheMap] objects
    created by [lookupOrMake], mutated in place.  [wrapperCache]: the
    module-level [WeakMap], from the address of a key object to the
    address of its [TypeCacheMap]. *)
Record state := mkState {
  heap : list obj;
  cacheMaps : list TypeCacheMap;
  wrapperCache : gmap loc loc;
}.

(** The store when the module has just been loaded:
    [const wrapperCache = new WeakMap()]. *)
Definition init : state := mkState [] [] ∅.

(** What a JavaScript [throw] carries here: [new Error(message)], or the
    [TypeError] of a built-in. *)
Inductive exn :=
| Error (message : string)
| TypeError (message : string).

(** The outcome of a call: it returns a value, it throws, or it gives no
    result at all ([Diverge]: an [ofType] chain that never ends or a
    reference to nothing, neither of which the module can build). The
    store reached so far survives a [throw]. *)
Inductive outcome (A : Type) :=
| Return (a : A) (s : state)
| Throw (e : exn) (s : state)
| Diverge.
Arguments Return {A} a s.
Arguments Throw {A} e s.
Arguments Diverge {A}.

Definition M (A : Type) : Type := state → outcome A.

Definition ret {A} (a : A) : M A := λ s, Return a s.

Definition bind {A B} (m : M A) (k : A → M B) : M B := λ s,
  match m s with
  | Return a s' => k a s'
  | Throw e s' => Throw e s'
  | Diverge => Diverge
  end.

Definition throw {A} (e : exn) : M A := λ s, Throw e s.

#[global] Instance M_ret : MRet M := @ret.
#[global] Instance M_bind : MBind M := λ A B k m, bind m k.

(** ** Rendering: [String(x)] and the [toString] methods *)

(** [listProto.toString]: ['[' + String(this.ofType) + ']'].  [String_]
    is the rendering of values on the current heap. *)
Definition listProto_toString (String_ : value → option string)
    (this_ofType : value) : option string :=
  r ← String_ this_ofType; Some ("[" +:+ r +:+ "]").

(** [nonNullProto.toString]: [String(this.ofType) + '!']. *)
Definition nonNullProto_toString (String_ : value → option string)
    (this_ofType : value) : option string :=
  r ← String_ this_ofType; Some (r +:+ "!").

(** Modelled from the spec: the [toString] of the named type classes
    lives in [definition.js], which is not part of the sources; the spec
    gives each named type a [name] "used only for display" and renders
    the wrappers of a type named ["Object"] as ["[Object!]"], so a named
    type renders as its name. *)
Definition namedProto_toString (name : string) : option string := Some name.

(** [String(v)], dispatching on the object's class; [fuel] bounds the
    depth of the nested [toString] calls. [None]: no result. *)
Fixpoint String_fuel (fuel : nat) (h : list obj) (v : value) : option string :=
  match v with
  | VUndefined => Some "undefined"
  | VNull => Some "null"
  | VRef l =>
      match fuel with
      | 0 => None
      | S n =>
          match h !! l with
          | Some (ONamed _ name) => namedProto_toString name
          | Some (OList t) => listProto_toString (String_fuel n h) t
          | Some (ONonNull t) => nonNullProto_toString (String_fuel n h) t
          | Some OOther => Some "[object Object]"
          | None => None
          end
      end
  end.

(** A chain of [ofType] references without a cycle is no longer than the
    heap. *)
Definition JsString (h : list obj) (v : value) : option string :=
  String_fuel (length h) h v.

(** ** The classifier of [definition.js] *)

(** The object a value refers to, if any. *)
Definition deref (h : list obj) (v : value) : option obj :=
  match v with
  | VRef l => h !! l
  | VUndefined | VNull => None
  end.

(** The functions below live in [definition.js], which is not part of
    the sources; only their callers ([wrappers.js]) and their tests are.
    Each is modelled from the spec, on the class of the object a value
    refers to. *)

(** Modelled from the spec: [isScalarType] of [definition.js];
    "[isV(type)]: true iff [type]'s top-level discriminant is exactly V
    (no unwrapping)", here V = Scalar. *)
Definition isScalarType (h : list obj) (type : value) : bool :=
  match deref h type with Some (ONamed Scalar _) => true | _ => false end.

(** Modelled from the spec: [isObjectType] of [definition.js];
    "[isV(type)]: true iff [type]'s top-level discriminant is exactly V
    (no unwrapping)", here V = Object. *)
Definition isObjectType (h : list obj) (type : value) : bool :=
  match deref h type with Some (ONamed Object _) => true | _ => false end.

(** Modelled from the spec: [isInterfaceType] of [definition.js];
    "[isV(type)]: true iff [type]'s top-level discriminant is exactly V
    (no unwrapping)", here V = Interface. *)
Definition isInterfaceType (h : list obj) (type : value) : bool :=
  match deref h type with Some (ONamed Interface _) => true | _ => false end.

(** Modelled from the spec: [isUnionType] of [definition.js];
    "[isV(type)]: true iff [type]'s top-level discriminant is exactly V
    (no unwrapping)", here V = Union. *)
Definition isUnionType (h : list obj) (type : value) : bool :=
  match deref h type with Some (ONamed Union _) => true | _ => false end.

(** Modelled from the spec: [isEnumType] of [definition.js];
    "[isV(type)]: true iff [type]'s top-level discriminant is exactly V
    (no unwrapping)", here V = Enum. *)
Definition isEnumType (h : list obj) (type : value) : bool :=
  match deref h type with Some (ONamed Enum _) => true | _ => false end.

(** Modelled from the spec: [isInputObjectType] of [definition.js];
    "[isV(type)]: true iff [type]'s top-level discriminant is exactly V
    (no unwrapping)", here V = InputObject. *)
Definition isInputObjectType (h : list obj) (type : value) : bool :=
  match deref h type with Some (ONamed InputObject _) => true | _ => false end.

(** Modelled from the spec: [isListType] of [definition.js]; "true iff
    [type]'s top-level discriminant is exactly" List. *)
Definition isListType (h : list obj) (type : value) : bool :=
  match deref h type with Some (OList _) => true | _ => false end.

(** Modelled from the spec: [isNonNullType] of [definition.js]; "true iff
    [type]'s top-level discriminant is exactly" NonNull. *)
Definition isNonNullType (h : list obj) (type : value) : bool :=
  match deref h type with Some (ONonNull _) => true | _ => false end.

(** The 8 base-variant predicates, in the order the spec lists them. *)
Definition baseVariantPredicates : list (list obj → value → bool) :=
  [isScalarType; isObjectType; isInterfaceType; isUnionType;
   isEnumType; isInputObjectType; isListType; isNonNullType].

(** Modelled from the spec: [isType] of [definition.js]; "true for any
    value that is a member of the Type algebra (any NamedType or
    WrappingType instance); false for type-variant
    descriptors/constructors themselves or unrelated values". *)
Definition isType (h : list obj) (type : value) : bool :=
  isScalarType h type || isObjectType h type || isInterfaceType h type
  || isUnionType h type || isEnumType h type || isInputObjectType h type
  || isListType h type || isNonNullType h type.

(** Modelled from the spec: "[isNullableType]: top-level discriminant is
    NOT NonNull (true for every NamedType and every List)"; [NonNull]
    rejects what is "not a nullable Type", so a value that is no type is
    not a nullable type either. *)
Definition isNullableType (h : list obj) (type : value) : bool :=
  isType h type && negb (isNonNullType h type).

(** Modelled from the spec: "[isWrappingType]: List or NonNull, top level
    only". *)
Definition isWrappingType (h : list obj) (type : value) : bool :=
  isListType h type || isNonNullType h type.

(** Modelled from the spec: "[isNamedType]: top-level discriminant is NOT
    List and NOT NonNull"; a value that is no type has no discriminant
    and is no named type. *)
Definition isNamedType (h : list obj) (type : value) : bool :=
  isType h type && negb (isWrappingType h type).

(** Modelled from the spec: "[isLeafType]: Scalar or Enum, strictly at
    the top level". *)
Definition isLeafType (h : list obj) (type : value) : bool :=
  isScalarType h type || isEnumType h type.

(** Modelled from the spec: "[isInputType]: Scalar, Enum, InputObject, or
    a List/NonNull whose immediate inner type is itself an input type
    (recursive)". [fuel] bounds the depth of the recursion. *)
Fixpoint isInputType_fuel (fuel : nat) (h : list obj) (type : value)
  : option bool :=
  match deref h type with
  | Some (ONamed k _) =>
      Some (match k with
            | Scalar | Enum | InputObject => true
            | Object | Interface | Union => false
            end)
  | Some (OList t) | Some (ONonNull t) =>
      match fuel with
      | 0 => None
      | S n => isInputType_fuel n h t
      end
  | Some OOther | None => Some false
  end.

(** Modelled from the spec: [isInputType] of [definition.js], the
    recursion above bounded by the size of the heap. [None]: no
    result. *)
Definition isInputType (h : list obj) (type : value) : option bool :=
  isInputType_fuel (length h) h type.

(** Modelled from the spec: "[isOutputType]: Scalar, Object, Interface,
    Union, Enum, or a List/NonNull whose immediate inner type is itself
    an output type (recursive)". *)
Fixpoint isOutputType_fuel (fuel : nat) (h : list obj) (type : value)
  : option bool :=
  match deref h type with
  | Some (ONamed k _) =>
      Some (match k with
            | Scalar | Object | Interface | Union | Enum => true
            | InputObject => false
            end)
  | Some (OList t) | Some (ONonNull t) =>
      match fuel with
      | 0 => None
      | S n => isOutputType_fuel n h t
      end
  | Some OOther | None => Some false
  end.

(** Modelled from the spec: [isOutputType] of [definition.js], the
    recursion above bounded by the size of the heap. *)
Definition isOutputType (h : list obj) (type : value) : option bool :=
  isOutputType_fuel (length h) h type.

(** Modelled from the spec: "[getNullableType(type)]: returns
    [undefined] if [type] is absent; if [type] is NonNull, returns its
    immediate inner type (single unwrap, not recursive); otherwise
    returns [type] unchanged". *)
Definition getNullableType (h : list obj) (type : value) : value :=
  if truthy type then
    match deref h type with
    | Some (ONonNull t) => t
    | _ => type
    end
  else VUndefined.

(** Modelled from the spec: "[getNamedType(type)]: returns [undefined] if
    [type] is absent; otherwise repeatedly strips List/NonNull layers
    until a NamedType is reached, to arbitrary depth, and returns it".
    [fuel] bounds the number of layers stripped. *)
Fixpoint getNamedType_fuel (fuel : nat) (h : list obj) (type : value)
  : option value :=
  match deref h type with
  | Some (OList t) | Some (ONonNull t) =>
      match fuel with
      | 0 => None
      | S n => getNamedType_fuel n h t
      end
  | _ => Some type
  end.

(** Modelled from the spec: [getNamedType] of [definition.js]:
    [undefined] for an absent [type], else the loop above bounded by the
    size of the heap. [None]: no result. *)
Definition getNamedType (h : list obj) (type : value) : option value :=
  if truthy type then getNamedType_fuel (length h) h type
  else Some VUndefined.

(** Modelled from the spec: the failure of the [assert*] functions of
    [definition.js]; "[assertV(type) -> V]: returns [type] narrowed to
    V; fails ... (including the stringified form of the rejected value)
    when [isV(type)] is false".  The words around the stringified value
    are not fixed by the spec; no theorem depends on them. *)
Definition assertion {A} (h : list obj) (rejected : value) (what : string)
  : M A := λ s,
  match JsString h rejected with
  | Some r => Throw (Error ("Expected " +:+ r +:+ " to be a " +:+ what)) s
  | None => Diverge
  end.

(** Modelled from the spec: [assertType] of [definition.js], the
    assertion of [isType]. *)
Definition assertType (type : value) : M value := λ s,
  if isType (heap s) type then Return type s
  else assertion (heap s) type "GraphQL type." s.

(** Modelled from the spec: [assertNullableType] of [definition.js],
    the assertion of [isNullableType]. *)
Definition assertNullableType (type : value) : M value := λ s,
  if isNullableType (heap s) type then Return type s
  else assertion (heap s) type "GraphQL nullable type." s.

(** Modelled from the spec: [jsutils/invariant] is not part of the
    sources; [wrapWithSpec] "fails if [spec] is empty", which is the
    [invariant] call of [wrapType], so [invariant] throws an [Error]
    with its message when its condition is false. *)
Definition invariant (condition : bool) (message : string) : M unit :=
  if condition then ret tt else throw (Error message).

(** ** Store primitives *)

(** [new C(...)] once the constructor body has run: a fresh object. *)
Definition alloc (o : obj) : M value := λ s,
  Return (VRef (length (heap s)))
         (mkState (heap s ++ [o]) (cacheMaps s) (wrapperCache s)).

(** [wrapperCache.get(key)]: [undefined] ([None]) when [key] is no
    object or has no entry. *)
Definition wrapperCache_get (key : value) : M (option loc) := λ s,
  Return (match key with
          | VRef l => wrapperCache s !! l
          | VUndefined | VNull => None
          end) s.

(** [wrapperCache.set(key, m)]: a [WeakMap] refuses a key that is no
    object. *)
Definition wrapperCache_set (key : value) (m : loc) : M unit := λ s,
  match key with
  | VRef l =>
      Return tt (mkState (heap s) (cacheMaps s) (<[l := m]> (wrapperCache s)))
  | VUndefined | VNull =>
      Throw (TypeError "Invalid value used as weak map key") s
  end.

(** The object literal [{}] of [lookupOrMake]. *)
Definition newTypeCacheMap : M loc := λ s,
  Return (length (cacheMaps s))
         (mkState (heap s) (cacheMaps s ++ [mkTypeCacheMap VUndefined VUndefined])
                  (wrapperCache s)).

(** [thisObjectMap[specChar]] *)
Definition readProp (m : loc) (specChar : CacheTypeKey) : M value := λ s,
  match cacheMaps s !! m with
  | Some o => Return (getProp o specChar) s
  | None => Diverge
  end.

(** [thisObjectMap[specChar] = v], in place. *)
Definition writeProp (m : loc) (specChar : CacheTypeKey) (v : value)
  : M unit := λ s,
  match cacheMaps s !! m with
  | Some o =>
      Return tt (mkState (heap s) (<[m := setProp o specChar v]> (cacheMaps s))
                         (wrapperCache s))
  | None => Diverge
  end.

(** ** [wrappers.js] *)

(** [lookupOrMake(ofType, specChar, cons)]; [cons] is the constructor as
    run by [new cons(ofType)]. *)
Definition lookupOrMake (ofType : value) (specChar : CacheTypeKey)
    (cons : value → M value) : M value :=
  found ← wrapperCache_get ofType;
  thisObjectMap ← match found with
                  | Some m => mret m
                  | None =>
                      m ← newTypeCacheMap;
                      _ ← wrapperCache_set ofType m;
                      mret m
                  end;
  cur ← readProp thisObjectMap specChar;
  _ ← (if truthy cur then mret tt
       else
         made ← cons ofType;
         writeProp thisObjectMap specChar made);
  readProp thisObjectMap specChar.

(** [new GraphQLList(ofType)]: the branch [this instanceof GraphQLList],
    [this.ofType = assertType(ofType)]; the value of the [new]
    expression is the object built. *)
Definition new_GraphQLList (ofType : value) : M value :=
  t ← assertType ofType;
  alloc (OList t).

(** [GraphQLList(ofType)] called without [new]. *)
Definition GraphQLList (ofType : value) : M value :=
  _ ← assertType ofType;
  lookupOrMake ofType KeyList new_GraphQLList.

(** [new GraphQLNonNull(ofType)]:
    [this.ofType = assertNullableType(ofType)]. *)
Definition new_GraphQLNonNull (ofType : value) : M value :=
  t ← assertNullableType ofType;
  alloc (ONonNull t).

(** [GraphQLNonNull(ofType)] called without [new]. *)
Definition GraphQLNonNull (ofType : value) : M value :=
  _ ← assertNullableType ofType;
  lookupOrMake ofType KeyNonNull new_GraphQLNonNull.

(** [Array.prototype.reduce(callback, initialValue)]. *)
Fixpoint reduce {A B} (callback : B → A → M B) (l : list A) (acc : B) : M B :=
  match l with
  | [] => mret acc
  | x :: rest => acc' ← callback acc x; reduce callback rest acc'
  end.

(** The callback of [wrapType]: the [switch (specChar)]. *)
Definition wrapStep (type : value) (specChar : ascii) : M value :=
  if Ascii.eqb specChar "]"%char then GraphQLList type
  else if Ascii.eqb specChar "!"%char then GraphQLNonNull type
  else throw (Error ("Invalid wrapSpec character: " +:+ String specChar "")).

(** [wrapType(ofType, wrapSpec)]; [wrapSpec.split('')] is the list of
    the characters of [wrapSpec]. *)
Definition wrapType (ofType : value) (wrapSpec : string) : M value :=
  _ ← invariant (negb (String.eqb wrapSpec "")) "Zero-length wrapSpec given.";
  reduce wrapStep (list_ascii_of_string wrapSpec) ofType.

(** ** Runs of the module *)

(** Modelled from the spec: the constructors of the named type classes
    are in [definition.js]; a named type is "a distinct external value
    carrying a [name]", so [new GraphQLObjectType({ name })] and its five
    siblings yield a fresh instance. *)
Definition newNamedType (k : NamedKind) (name : string) : M value :=
  alloc (ONamed k name).

(** What a client of the module can do to the store. *)
Inductive call :=
| CNewNamedType (k : NamedKind) (name : string)
| CNewOther
| CGraphQLList (ofType : value)
| CNewGraphQLList (ofType : value)
| CGraphQLNonNull (ofType : value)
| CNewGraphQLNonNull (ofType : value)
| CWrapType (ofType : value) (wrapSpec : string).

Definition run (c : call) : M value :=
  match c with
  | CNewNamedType k name => newNamedType k name
  | CNewOther => alloc OOther
  | CGraphQLList v => GraphQLList v
  | CNewGraphQLList v => new_GraphQLList v
  | CGraphQLNonNull v => GraphQLNonNull v
  | CNewGraphQLNonNull v => new_GraphQLNonNull v
  | CWrapType v spec => wrapType v spec
  end.

(** The store a call leaves behind, whether it returns or throws. *)
Definition after (c : call) (s : state) : option state :=
  match run c s with
  | Return _ s' | Throw _ s' => Some s'
  | Diverge => None
  end.

Fixpoint afterAll (cs : list call) (s : state) : option state :=
  match cs with
  | [] => Some s
  | c :: rest => s' ← after c s; afterAll rest s'
  end.

(** The stores that runs of the module reach from [init]. *)
Inductive reachable : state → Prop :=
| reachable_init : reachable init
| reachable_step s c s' :
    reachable s → after c s = Some s' → reachable s'.

(** ** Invariants of the store *)

(** [GraphQLList] for [']'], [GraphQLNonNull] for ['!']. *)
Definition wrapperObj (c : CacheTypeKey) (t : value) : obj :=
  match c with
  | KeyList => OList t
  | KeyNonNull => ONonNull t
  end.

(** The [ofType] field of a wrapper object. *)
Definition ofTypeOf (o : obj) : option value :=
  match o with
  | OList t | ONonNull t => Some t
  | ONamed _ _ | OOther => None
  end.

(** [v] is no reference to address [n] or beyond. *)
Definition below (n : nat) (v : value) : Prop :=
  match v with
  | VRef l => l < n
  | VUndefined | VNull => True
  end.

(** A value a client can hold on heap [h]: no reference to nothing. *)
Definition valid (h : list obj) (v : value) : Prop := below (length h) v.

(** Every wrapper points to a type allocated before it, and a
    [GraphQLNonNull] never to a [GraphQLNonNull]. *)
Definition wf_heap (h : list obj) : Prop :=
  ∀ l o t, h !! l = Some o → ofTypeOf o = Some t →
    (∃ l', t = VRef l' ∧ l' < l) ∧ isType h t = true ∧
    (o = ONonNull t → isNonNullType h t = false).

(** What the cache holds for inner type [k] and kind [c]:
    [wrapperCache.get(k)[c]], [undefined] when there is no entry. *)
Definition cached (s : state) (k : loc) (c : CacheTypeKey) : value :=
  match wrapperCache s !! k with
  | Some m =>
      match cacheMaps s !! m with
      | Some o => getProp o c
      | None => VUndefined
      end
  | None => VUndefined
  end.

Record wf (s : state) : Prop := mkWf {
  wf_types : wf_heap (heap s);
  wf_maps : ∀ k m, wrapperCache s !! k = Some m → m < length (cacheMaps s);
  wf_inj : ∀ k k' m,
    wrapperCache s !! k = Some m → wrapperCache s !! k' = Some m → k = k';
  wf_slots : ∀ k c,
    cached s k c = VUndefined ∨
    ∃ w, cached s k c = VRef w ∧ heap s !! w = Some (wrapperObj c (VRef k));
}.

(** [s'] is a later store than [s]: the heap has only grown and every
    filled cache slot still holds the same wrapper. *)
Record extends (s s' : state) : Prop := mkExtends {
  ext_heap : heap s `prefix_of` heap s';
  ext_cached : ∀ k c w, cached s k c = VRef w → cached s' k c = VRef w;
}.

(** A Hoare triple over the invariants: on a well-formed store the call
    keeps [wf] and [extends] whether it returns or throws, and when
    [pre] holds it gives an outcome, with [post] if it returns. *)
Definition sound {A} (pre : state → Prop) (post : A → state → Prop)
    (m : M A) : Prop :=
  ∀ s, wf s →
    match m s with
    | Return a s' => wf s' ∧ extends s s' ∧ (pre s → post a s')
    | Throw _ s' => wf s' ∧ extends s s'
    | Diverge => ¬ pre s
    end.

(** How many of the 8 base-variant predicates hold of [v]. *)
Definition countBaseVariants (h : list obj) (v : value) : nat :=
  length (List.filter (λ isV, isV h v) baseVariantPredicates).

(** The arguments of a call are values the client can hold. *)
Definition validCall (c : call) (s : state) : Prop :=
  match c with
  | CNewNamedType _ _ | CNewOther => True
  | CGraphQLList v | CNewGraphQLList v
  | CGraphQLNonNull v | CNewGraphQLNonNull v
  | CWrapType v _ => valid (heap s) v
  end.

(** Stores used to try the theorems on: two object types that share
    the name ["A"]; the object type ["Object"] with its non-null
    wrapper; an input object type. *)
Definition twoObjects : state :=
  mkState [ONamed Object "A"; ONamed Object "A"] [] ∅.

Definition objectAndNonNull : state :=
  Eval vm_compute in
    default init
      (afterAll [CNewNamedType Object "Object"; CGraphQLNonNull (VRef 0)] init).

Definition oneInputObject : state :=
  mkState [ONamed InputObject "InputObject"] [] ∅.

(** The factory call, the constructor run by [new], and the check each
    makes on its argument, by wrapper kind. *)
Definition factory (c : CacheTypeKey) : value → M value :=
  match c with
  | KeyList => GraphQLList
  | KeyNonNull => GraphQLNonNull
  end.

Definition construct (c : CacheTypeKey) : value → M value :=
  match c with
  | KeyList => new_GraphQLList
  | KeyNonNull => new_GraphQLNonNull
  end.

Definition accepts (c : CacheTypeKey) (h : list obj) (v : value) : bool :=
  match c with
  | KeyList => isType h v
  | KeyNonNull => isNullableType h v
  end.

Definition expected (c : CacheTypeKey) : string :=
  match c with
  | KeyList => "GraphQL type."
  | KeyNonNull => "GraphQL nullable type."
  end.

(** The store once [wrapperCache.set(ofType, (thisObjectMap = {}))] has
    run for a key without entry. *)
Definition withFreshMap (s : state) (k : loc) : state :=
  mkState (heap s)
          (cacheMaps s ++ [mkTypeCacheMap VUndefined VUndefined])
          (<[k := length (cacheMaps s)]> (wrapperCache s)).

(** A marker string [wrapType] accepts on a nullable base type: only
    [']'] and ['!'], and no ['!'] right after a ['!'] (or first, when the
    running type is already non-null: [afterNonNull]). *)
Fixpoint legalMarkers (afterNonNull : bool) (l : list ascii) : bool :=
  match l with
  | [] => true
  | c :: rest =>
      if Ascii.eqb c "]"%char then legalMarkers false rest
      else if Ascii.eqb c "!"%char then negb afterNonNull && legalMarkers true rest
      else false
  end.

Definition validSpec (wrapSpec : string) : bool :=
  negb (String.eqb wrapSpec "") &&
  legalMarkers false (list_ascii_of_string wrapSpec).

(** A character outside the alphabet of [wrapType]. *)
Definition isMarker (c : ascii) : bool :=
  Ascii.eqb c "]"%char || Ascii.eqb c "!"%char.

(** What the markers of a spec do to the rendering [r] of the base type,
    first marker first: brackets around it for [']'], a ["!"] after it
    for ['!']. *)
Definition renderMarkers (l : list ascii) (r : string) : string :=
  fold_left (λ acc ch,
               if Ascii.eqb ch "]"%char then "[" +:+ acc +:+ "]"
               else acc +:+ "!") l r.

(** * Proofs *)

Ltac munfold :=
  unfold mbind, M_bind, bind, mret, M_ret, ret, throw in *.

Section HeapFacts.

Lemma deref_app h e v : valid h v → deref (h ++ e) v = deref h v.
Proof.
  destruct v as [| |l]; simpl; [done..|].
  intros Hl. by rewrite lookup_app_l.
Qed.

Lemma deref_valid h v o : deref h v = Some o → valid h v.
Proof.
  destruct v as [| |l]; simpl; [done..|].
  apply lookup_lt_Some.
Qed.

Lemma deref_Some_app h e v o : deref h v = Some o → deref (h ++ e) v = Some o.
Proof. intros H. rewrite deref_app; [done|]. by eapply deref_valid. Qed.

Lemma deref_prefix h h' v o :
  h `prefix_of` h' → deref h v = Some o → deref h' v = Some o.
Proof. intros [e ->]. apply deref_Some_app. Qed.

Lemma isType_deref h v :
  isType h v = true ↔ ∃ o, deref h v = Some o ∧ o ≠ OOther.
Proof.
  unfold isType, isScalarType, isObjectType, isInterfaceType, isUnionType,
    isEnumType, isInputObjectType, isListType, isNonNullType.
  destruct (deref h v) as [[[] ?| | |]|]; simpl; split;
    try done; try (intros _; eexists; split; [reflexivity|done]);
    intros (o & Ho & Hne); congruence.
Qed.

Lemma isType_ref h v : isType h v = true → ∃ l, v = VRef l ∧ l < length h.
Proof.
  intros (o & Ho & _)%isType_deref.
  destruct v as [| |l]; simpl in *; try done.
  exists l. split; [done|]. by eapply lookup_lt_Some.
Qed.

Lemma isType_valid h v : isType h v = true → valid h v.
Proof. intros (l & -> & Hl)%isType_ref. exact Hl. Qed.

Lemma isType_app h e v : isType h v = true → isType (h ++ e) v = true.
Proof.
  rewrite !isType_deref. intros (o & Ho & Hne).
  exists o. split; [by apply deref_Some_app|done].
Qed.

Lemma isNonNullType_app h e v :
  valid h v → isNonNullType (h ++ e) v = isNonNullType h v.
Proof. intros Hv. unfold isNonNullType. by rewrite deref_app. Qed.

Lemma isNullableType_app h e v :
  valid h v → isNullableType (h ++ e) v = isNullableType h v.
Proof.
  intros Hv. unfold isNullableType, isType, isScalarType, isObjectType,
    isInterfaceType, isUnionType, isEnumType, isInputObjectType, isListType,
    isNonNullType.
  by rewrite deref_app.
Qed.

Lemma isNullableType_spec h v :
  isNullableType h v = true ↔ isType h v = true ∧ isNonNullType h v = false.
Proof.
  unfold isNullableType. rewrite andb_true_iff, negb_true_iff. done.
Qed.

Lemma wf_heap_nil : wf_heap [].
Proof. intros l o t Hl. by rewrite lookup_nil in Hl. Qed.

Lemma wf_heap_snoc h o :
  wf_heap h →
  (∀ t, ofTypeOf o = Some t →
     isType h t = true ∧ (o = ONonNull t → isNonNullType h t = false)) →
  wf_heap (h ++ [o]).
Proof.
  intros Hwf Ho l o' t Hl Ht.
  destruct (decide (l < length h)) as [Hlt|Hge].
  - rewrite lookup_app_l in Hl by done.
    destruct (Hwf l o' t Hl Ht) as (Href & Hty & Hnn).
    split; [done|]. split; [by apply isType_app|].
    intros Heq. rewrite isNonNullType_app; [by apply Hnn|].
    by apply isType_valid.
  - assert (l = length h) as ->.
    { apply lookup_lt_Some in Hl. rewrite length_app in Hl. simpl in Hl. lia. }
    rewrite lookup_app_r in Hl by lia.
    rewrite Nat.sub_diag in Hl. simpl in Hl. injection Hl as <-.
    destruct (Ho t Ht) as (Hty & Hnn).
    split; [by apply isType_ref|].
    split; [by apply isType_app|].
    intros Heq. rewrite isNonNullType_app; [by apply Hnn|].
    by apply isType_valid.
Qed.

End HeapFacts.

(** On a well-formed heap the bounded recursions do not depend on the
    bound, once it exceeds the address they start from, nor on objects
    allocated later. *)
Section Fuel.

Variables h h' : list obj.
Hypothesis Hwf : wf_heap h.
Hypothesis Hext : h `prefix_of` h'.

Lemma deref_later v : valid h v → deref h' v = deref h v.
Proof. destruct Hext as [e ->]. apply deref_app. Qed.

Lemma wf_heap_inner v o t :
  deref h v = Some o → ofTypeOf o = Some t →
  valid h t ∧ ∀ n, below (S n) v → below n t.
Proof.
  destruct v as [| |l]; simpl; [done..|]. intros Hl Ht.
  destruct (Hwf l o t Hl Ht) as ((l' & -> & Hlt) & _ & _).
  apply lookup_lt_Some in Hl.
  split; [unfold valid; simpl; lia|]. intros n. simpl. lia.
Qed.

Lemma String_fuel_stable n : ∀ n' v,
  valid h v → below n v → below n' v →
  String_fuel n h' v = String_fuel n' h v.
Proof.
  induction n as [|n IH]; intros n' v Hv Hn Hn';
    (destruct v as [| |l]; [by destruct n'..|]); simpl in Hn, Hn'; [lia|].
  destruct n' as [|n']; [lia|simpl].
  - pose proof (deref_later (VRef l) Hv) as Hd. simpl in Hd. rewrite Hd.
    destruct (h !! l) as [[k name|t|t|]|] eqn:Hl; try done.
    + destruct (wf_heap_inner (VRef l) _ t Hl eq_refl) as (Hvt & Hb).
      unfold listProto_toString.
      rewrite (IH n' t); [done|done|apply Hb|apply Hb]; simpl; lia.
    + destruct (wf_heap_inner (VRef l) _ t Hl eq_refl) as (Hvt & Hb).
      unfold nonNullProto_toString.
      rewrite (IH n' t); [done|done|apply Hb|apply Hb]; simpl; lia.
Qed.

Lemma isInputType_fuel_stable n : ∀ n' v,
  valid h v → below n v → below n' v →
  isInputType_fuel n h' v = isInputType_fuel n' h v.
Proof.
  induction n as [|n IH]; intros n' v Hv Hn Hn';
    (destruct v as [| |l]; [by destruct n'..|]); simpl in Hn, Hn'; [lia|].
  destruct n' as [|n']; [lia|].
  simpl. pose proof (deref_later (VRef l) Hv) as Hd. simpl in Hd. rewrite Hd.
  destruct (h !! l) as [[k name|t|t|]|] eqn:Hl; try done;
    destruct (wf_heap_inner (VRef l) _ t Hl eq_refl) as (Hvt & Hb);
    apply IH; try done; apply Hb; simpl; lia.
Qed.

Lemma isOutputType_fuel_stable n : ∀ n' v,
  valid h v → below n v → below n' v →
  isOutputType_fuel n h' v = isOutputType_fuel n' h v.
Proof.
  induction n as [|n IH]; intros n' v Hv Hn Hn';
    (destruct v as [| |l]; [by destruct n'..|]); simpl in Hn, Hn'; [lia|].
  destruct n' as [|n']; [lia|].
  simpl. pose proof (deref_later (VRef l) Hv) as Hd. simpl in Hd. rewrite Hd.
  destruct (h !! l) as [[k name|t|t|]|] eqn:Hl; try done;
    destruct (wf_heap_inner (VRef l) _ t Hl eq_refl) as (Hvt & Hb);
    apply IH; try done; apply Hb; simpl; lia.
Qed.

Lemma getNamedType_fuel_stable n : ∀ n' v,
  valid h v → below n v → below n' v →
  getNamedType_fuel n h' v = getNamedType_fuel n' h v.
Proof.
  induction n as [|n IH]; intros n' v Hv Hn Hn';
    (destruct v as [| |l]; [by destruct n'..|]); simpl in Hn, Hn'; [lia|].
  destruct n' as [|n']; [lia|].
  simpl. pose proof (deref_later (VRef l) Hv) as Hd. simpl in Hd. rewrite Hd.
  destruct (h !! l) as [[k name|t|t|]|] eqn:Hl; try done;
    destruct (wf_heap_inner (VRef l) _ t Hl eq_refl) as (Hvt & Hb);
    apply IH; try done; apply Hb; simpl; lia.
Qed.

Lemma valid_later v : valid h v → valid h' v.
Proof.
  destruct Hext as [e ->]. destruct v; simpl; try done.
  unfold valid. simpl. rewrite length_app. lia.
Qed.

Lemma JsString_later v : valid h v → JsString h' v = JsString h v.
Proof.
  intros Hv. apply String_fuel_stable; [done|by apply valid_later|done].
Qed.

Lemma isInputType_later v : valid h v → isInputType h' v = isInputType h v.
Proof.
  intros Hv. apply isInputType_fuel_stable; [done|by apply valid_later|done].
Qed.

Lemma isOutputType_later v : valid h v → isOutputType h' v = isOutputType h v.
Proof.
  intros Hv. apply isOutputType_fuel_stable; [done|by apply valid_later|done].
Qed.

Lemma getNamedType_later v : valid h v → getNamedType h' v = getNamedType h v.
Proof.
  intros Hv. unfold getNamedType. destruct (truthy v); [|done].
  apply getNamedType_fuel_stable; [done|by apply valid_later|done].
Qed.

End Fuel.

(** The recursive equations of the renderer, the classifier and the
    unwrapper on a well-formed heap, and their totality. *)
Section Unfold.

Variable h : list obj.
Hypothesis Hwf : wf_heap h.

Lemma String_fuel_inner l o t n :
  h !! l = Some o → ofTypeOf o = Some t → length h = S n →
  String_fuel n h t = JsString h t.
Proof.
  intros Hl Ht Hn.
  destruct (wf_heap_inner h Hwf (VRef l) o t Hl Ht) as (Hvt & Hb).
  apply (String_fuel_stable h h Hwf (reflexivity h)); [done| |done].
  apply Hb. simpl. apply lookup_lt_Some in Hl. lia.
Qed.

Lemma JsString_ref l :
  JsString h (VRef l) =
  match h !! l with
  | Some (ONamed _ name) => Some name
  | Some (OList t) => listProto_toString (JsString h) t
  | Some (ONonNull t) => nonNullProto_toString (JsString h) t
  | Some OOther => Some "[object Object]"
  | None => None
  end.
Proof.
  unfold JsString at 1. destruct (length h) as [|n] eqn:Hn; simpl.
  - apply nil_length_inv in Hn. subst h. by rewrite lookup_nil.
  - destruct (h !! l) as [[k name|t|t|]|] eqn:Hl; try done.
    + unfold listProto_toString.
      by rewrite (String_fuel_inner l _ t n Hl eq_refl Hn).
    + unfold nonNullProto_toString.
      by rewrite (String_fuel_inner l _ t n Hl eq_refl Hn).
Qed.

Lemma isInputType_unfold v :
  isInputType h v =
  match deref h v with
  | Some (ONamed k _) =>
      Some (match k with
            | Scalar | Enum | InputObject => true
            | Object | Interface | Union => false
            end)
  | Some (OList t) | Some (ONonNull t) => isInputType h t
  | Some OOther | None => Some false
  end.
Proof.
  unfold isInputType at 1.
  destruct (deref h v) as [o|] eqn:Hd; [|by destruct (length h); simpl; rewrite Hd].
  destruct (length h) as [|n] eqn:Hn.
  { apply nil_length_inv in Hn. subst h.
    destruct v; simpl in Hd; try done; by rewrite ?lookup_nil in Hd. }
  simpl. rewrite Hd. destruct o as [k name|t|t|]; try done.
  all: destruct v as [| |l]; simpl in Hd; try done.
  all: destruct (wf_heap_inner h Hwf (VRef l) _ t Hd eq_refl) as (Hvt & Hb).
  all: apply (isInputType_fuel_stable h h Hwf (reflexivity h)); [done| |done].
  all: apply Hb; simpl; apply lookup_lt_Some in Hd; lia.
Qed.

Lemma isOutputType_unfold v :
  isOutputType h v =
  match deref h v with
  | Some (ONamed k _) =>
      Some (match k with
            | Scalar | Object | Interface | Union | Enum => true
            | InputObject => false
            end)
  | Some (OList t) | Some (ONonNull t) => isOutputType h t
  | Some OOther | None => Some false
  end.
Proof.
  unfold isOutputType at 1.
  destruct (deref h v) as [o|] eqn:Hd; [|by destruct (length h); simpl; rewrite Hd].
  destruct (length h) as [|n] eqn:Hn.
  { apply nil_length_inv in Hn. subst h.
    destruct v; simpl in Hd; try done; by rewrite ?lookup_nil in Hd. }
  simpl. rewrite Hd. destruct o as [k name|t|t|]; try done.
  all: destruct v as [| |l]; simpl in Hd; try done.
  all: destruct (wf_heap_inner h Hwf (VRef l) _ t Hd eq_refl) as (Hvt & Hb).
  all: apply (isOutputType_fuel_stable h h Hwf (reflexivity h)); [done| |done].
  all: apply Hb; simpl; apply lookup_lt_Some in Hd; lia.
Qed.

Lemma getNamedType_unfold v :
  getNamedType h v =
  match deref h v with
  | Some (OList t) | Some (ONonNull t) => getNamedType h t
  | _ => Some (if truthy v then v else VUndefined)
  end.
Proof.
  unfold getNamedType at 1.
  destruct (deref h v) as [o|] eqn:Hd.
  2: { destruct (truthy v); [|done]. by destruct (length h); simpl; rewrite Hd. }
  destruct v as [| |l]; simpl in Hd; try done. simpl truthy. cbv iota.
  destruct (length h) as [|n] eqn:Hn.
  { apply nil_length_inv in Hn. subst h. by rewrite lookup_nil in Hd. }
  simpl. rewrite Hd. destruct o as [k name|t|t|]; try done.
  all: destruct (Hwf l _ t Hd eq_refl) as ((l' & -> & Hlt) & _).
  all: unfold getNamedType; simpl truthy; cbv iota.
  all: apply (getNamedType_fuel_stable h h Hwf (reflexivity h));
    apply lookup_lt_Some in Hd; unfold valid; simpl; lia.
Qed.

(** Strong induction along [ofType]: a property of values that holds
    for every value once it holds for its inner type. *)
Lemma ofType_ind (P : value → Prop) :
  (∀ v, (∀ o t, deref h v = Some o → ofTypeOf o = Some t → P t) → P v) →
  ∀ v, P v.
Proof.
  intros Hstep.
  assert (∀ n l, l < n → P (VRef l)) as Hrefs.
  { induction n as [|n IH]; intros l Hl; [lia|].
    apply Hstep. intros o t Hd Ht. simpl in Hd.
    destruct (Hwf l o t Hd Ht) as ((l' & -> & Hlt) & _).
    apply IH. lia. }
  intros [| |l]; [apply Hstep; simpl; done..|].
  apply (Hrefs (S l)). lia.
Qed.

Lemma JsString_total v : valid h v → is_Some (JsString h v).
Proof.
  induction v as [v IH] using ofType_ind. intros Hv.
  destruct v as [| |l]; [unfold JsString; destruct (length h); by eexists..|].
  rewrite JsString_ref. destruct (lookup_lt_is_Some_2 h l Hv) as [o Hl].
  rewrite Hl. destruct o as [k name|t|t|]; try by eexists.
  - destruct (IH _ t Hl eq_refl) as [r Hr].
    { by destruct (wf_heap_inner h Hwf (VRef l) _ t Hl eq_refl). }
    unfold listProto_toString. rewrite Hr. by eexists.
  - destruct (IH _ t Hl eq_refl) as [r Hr].
    { by destruct (wf_heap_inner h Hwf (VRef l) _ t Hl eq_refl). }
    unfold nonNullProto_toString. rewrite Hr. by eexists.
Qed.

Lemma isInputType_total v : is_Some (isInputType h v).
Proof.
  induction v as [v IH] using ofType_ind.
  rewrite isInputType_unfold.
  destruct (deref h v) as [[k name|t|t|]|] eqn:Hd; try by eexists.
  all: by apply (IH _ t eq_refl).
Qed.

Lemma isOutputType_total v : is_Some (isOutputType h v).
Proof.
  induction v as [v IH] using ofType_ind.
  rewrite isOutputType_unfold.
  destruct (deref h v) as [[k name|t|t|]|] eqn:Hd; try by eexists.
  all: by apply (IH _ t eq_refl).
Qed.

Lemma getNamedType_total v : is_Some (getNamedType h v).
Proof.
  induction v as [v IH] using ofType_ind.
  rewrite getNamedType_unfold.
  destruct (deref h v) as [[k name|t|t|]|] eqn:Hd; try by eexists.
  all: by apply (IH _ t eq_refl).
Qed.

End Unfold.

(** ** The cache *)

Section Cache.

Lemma wf_init : wf init.
Proof.
  split; simpl.
  - apply wf_heap_nil.
  - intros k m Hk. by rewrite lookup_empty in Hk.
  - intros k k' m Hk. by rewrite lookup_empty in Hk.
  - intros k c. left. unfold cached. simpl. by rewrite lookup_empty.
Qed.

Lemma extends_refl s : extends s s.
Proof. split; [reflexivity|done]. Qed.

Lemma extends_trans s1 s2 s3 : extends s1 s2 → extends s2 s3 → extends s1 s3.
Proof.
  intros [Hh1 Hc1] [Hh2 Hc2]. split; [by etrans|].
  intros k c w Hw. by apply Hc2, Hc1.
Qed.

Lemma getProp_setProp o c v c' :
  getProp (setProp o c v) c' = if decide (c' = c) then v else getProp o c'.
Proof. by destruct c, c'. Qed.

Lemma cached_falsy s k c : wf s → truthy (cached s k c) = false →
  cached s k c = VUndefined.
Proof.
  intros Hwf Hf. destruct (wf_slots s Hwf k c) as [Hu|(w & Hw & _)]; [done|].
  by rewrite Hw in Hf.
Qed.

(** A hit: the slot is filled, [lookupOrMake] returns what it holds and
    leaves the store alone. *)
Lemma lookupOrMake_hit s k c cons w :
  cached s k c = VRef w →
  lookupOrMake (VRef k) c cons s = Return (VRef w) s.
Proof.
  unfold cached. intros Hc.
  destruct (wrapperCache s !! k) as [m|] eqn:Hk; [|done].
  destruct (cacheMaps s !! m) as [o|] eqn:Hm; [|done].
  unfold lookupOrMake, wrapperCache_get, readProp. munfold.
  rewrite Hk. simpl. rewrite Hm, Hc. simpl. by rewrite Hm, Hc.
Qed.

Lemma lookupOrMake_fresh_map s k c cons :
  wrapperCache s !! k = None →
  lookupOrMake (VRef k) c cons s = lookupOrMake (VRef k) c cons (withFreshMap s k).
Proof.
  intros Hk. unfold lookupOrMake, wrapperCache_get, wrapperCache_set,
    newTypeCacheMap. munfold.
  rewrite Hk. unfold withFreshMap at 1. simpl.
  by rewrite lookup_insert_eq.
Qed.

Lemma cached_withFreshMap s k k' c :
  wf s → wrapperCache s !! k = None →
  cached (withFreshMap s k) k' c = cached s k' c.
Proof.
  intros Hwf Hk. unfold cached, withFreshMap. simpl.
  destruct (decide (k = k')) as [<-|Hne].
  - rewrite lookup_insert_eq, Hk.
    rewrite lookup_app_r by lia. rewrite Nat.sub_diag. simpl. by destruct c.
  - rewrite lookup_insert_ne by done.
    destruct (wrapperCache s !! k') as [m'|] eqn:Hk'; [|done].
    pose proof (wf_maps s Hwf k' m' Hk') as Hlt.
    by rewrite lookup_app_l.
Qed.

Lemma wf_withFreshMap s k :
  wf s → wrapperCache s !! k = None → wf (withFreshMap s k).
Proof.
  intros Hwf Hk. split.
  - apply (wf_types s Hwf).
  - intros k' m. simpl. rewrite length_app. simpl.
    destruct (decide (k = k')) as [<-|Hne].
    + rewrite lookup_insert_eq. intros [= <-]. lia.
    + rewrite lookup_insert_ne by done. intros Hk'.
      pose proof (wf_maps s Hwf k' m Hk'). lia.
  - intros k1 k2 m. simpl.
    destruct (decide (k = k1)) as [<-|Hne1], (decide (k = k2)) as [<-|Hne2];
      rewrite ?lookup_insert_eq, ?lookup_insert_ne by done; try done.
    + intros [= <-] Hk2. pose proof (wf_maps s Hwf k2 _ Hk2). lia.
    + intros Hk1 [= <-]. pose proof (wf_maps s Hwf k1 _ Hk1). lia.
    + apply (wf_inj s Hwf).
  - intros k' c. rewrite cached_withFreshMap by done.
    apply (wf_slots s Hwf).
Qed.

(** A miss on a key that has its [TypeCacheMap]: the wrapper built by
    [cons] is stored in the slot and returned. *)
Lemma lookupOrMake_fill s k c cons m :
  wf s → wrapperCache s !! k = Some m → cached s k c = VUndefined →
  cons (VRef k) s = alloc (wrapperObj c (VRef k)) s →
  ∃ s', lookupOrMake (VRef k) c cons s = Return (VRef (length (heap s))) s' ∧
    heap s' = heap s ++ [wrapperObj c (VRef k)] ∧
    (∀ k' m', wrapperCache s' !! k' = Some m' ↔ wrapperCache s !! k' = Some m') ∧
    length (cacheMaps s') = length (cacheMaps s) ∧
    ∀ k' c', cached s' k' c' =
      if decide (k' = k ∧ c' = c) then VRef (length (heap s))
      else cached s k' c'.
Proof.
  intros Hwf Hk Hc Hcons.
  destruct (lookup_lt_is_Some_2 _ _ (wf_maps s Hwf k m Hk)) as [o Hm].
  assert (getProp o c = VUndefined) as Ho.
  { unfold cached in Hc. by rewrite Hk, Hm in Hc. }
  eexists. split; [|split; [|split; [|split]]].
  - unfold lookupOrMake, wrapperCache_get, readProp, writeProp. munfold.
    rewrite Hk. simpl. rewrite Hm, Ho. simpl. rewrite Hcons.
    unfold alloc. simpl. rewrite Hm. simpl.
    rewrite list_lookup_insert_eq by (by eapply lookup_lt_Some).
    rewrite getProp_setProp. rewrite decide_True by done. reflexivity.
  - done.
  - done.
  - simpl. by rewrite length_insert.
  - intros k' c'. unfold cached. simpl.
    destruct (wrapperCache s !! k') as [m'|] eqn:Hk'.
    + destruct (decide (m' = m)) as [->|Hne].
      * assert (k' = k) as -> by (by eapply (wf_inj s Hwf)).
        rewrite list_lookup_insert_eq by (by eapply lookup_lt_Some).
        rewrite Hm, getProp_setProp.
        destruct (decide (c' = c)) as [->|Hnc].
        -- by rewrite decide_True.
        -- rewrite decide_False; [done|]. by intros [_ ?].
      * rewrite list_lookup_insert_ne by done.
        rewrite decide_False; [done|]. intros [-> _]. congruence.
    + rewrite decide_False; [done|]. intros [-> _]. congruence.
Qed.

End Cache.

(** ** The constructors *)

Section Constructors.

Lemma accepts_isType c h v : accepts c h v = true → isType h v = true.
Proof. destruct c; simpl; [done|]. by intros [? _]%isNullableType_spec. Qed.

Lemma construct_accepts c s v :
  accepts c (heap s) v = true → construct c v s = alloc (wrapperObj c v) s.
Proof.
  destruct c; simpl; intros Ha;
    unfold new_GraphQLList, new_GraphQLNonNull, assertType, assertNullableType;
    munfold; by rewrite Ha.
Qed.

Lemma construct_rejects c s v :
  accepts c (heap s) v = false →
  construct c v s = assertion (heap s) v (expected c) s.
Proof.
  destruct c; simpl; intros Ha;
    unfold new_GraphQLList, new_GraphQLNonNull, assertType, assertNullableType;
    munfold; rewrite Ha; unfold assertion; by destruct (JsString _ _).
Qed.

Lemma factory_accepts c s v :
  accepts c (heap s) v = true →
  factory c v s = lookupOrMake v c (construct c) s.
Proof.
  destruct c; simpl; intros Ha;
    unfold GraphQLList, GraphQLNonNull, assertType, assertNullableType;
    munfold; by rewrite Ha.
Qed.

Lemma factory_rejects c s v :
  accepts c (heap s) v = false →
  factory c v s = assertion (heap s) v (expected c) s.
Proof.
  destruct c; simpl; intros Ha;
    unfold GraphQLList, GraphQLNonNull, assertType, assertNullableType;
    munfold; rewrite Ha; unfold assertion; by destruct (JsString _ _).
Qed.

Lemma assertion_throws {A} s v what :
  wf s → valid (heap s) v →
  ∃ msg, assertion (A:=A) (heap s) v what s = Throw (Error msg) s.
Proof.
  intros Hwf Hv. unfold assertion.
  destruct (JsString_total _ (wf_types s Hwf) v Hv) as [r ->]. by eexists.
Qed.

Lemma assertion_outcome {A} h s v what :
  (∃ msg, assertion (A:=A) h v what s = Throw (Error msg) s) ∨
  assertion (A:=A) h v what s = Diverge.
Proof.
  unfold assertion. destruct (JsString h v); [left; by eexists|by right].
Qed.

Lemma wf_fill s s' k c :
  wf s → accepts c (heap s) (VRef k) = true →
  cached s k c = VUndefined →
  heap s' = heap s ++ [wrapperObj c (VRef k)] →
  (∀ k' m', wrapperCache s' !! k' = Some m' ↔ wrapperCache s !! k' = Some m') →
  length (cacheMaps s') = length (cacheMaps s) →
  (∀ k' c', cached s' k' c' =
     if decide (k' = k ∧ c' = c) then VRef (length (heap s))
     else cached s k' c') →
  wf s' ∧ extends s s'.
Proof.
  intros Hwf Ha Hc Hh Hcache Hlen Hcached. split; [split|split].
  - rewrite Hh. apply wf_heap_snoc; [apply (wf_types s Hwf)|].
    intros t Ht. assert (t = VRef k) as -> by (destruct c; simpl in Ht; congruence).
    split; [by eapply accepts_isType|].
    destruct c; simpl; [done|]. intros _.
    by apply isNullableType_spec in Ha as [_ ?].
  - intros k' m' Hk'. rewrite Hlen. apply (wf_maps s Hwf k'). by apply Hcache.
  - intros k1 k2 m H1 H2. apply Hcache in H1, H2. by eapply (wf_inj s Hwf).
  - intros k' c'. rewrite Hcached. case_decide as Hd.
    + destruct Hd as [-> ->]. right. eexists. split; [done|].
      rewrite Hh. rewrite lookup_app_r by lia. by rewrite Nat.sub_diag.
    + destruct (wf_slots s Hwf k' c') as [Hu|(w & Hw & Hhw)]; [by left|].
      right. exists w. split; [done|]. rewrite Hh. by apply lookup_app_l_Some.
  - rewrite Hh. by apply prefix_app_r.
  - intros k' c' w Hw. rewrite Hcached. case_decide as Hd; [|done].
    destruct Hd as [-> ->]. congruence.
Qed.

(** What a factory call does on an argument it accepts. *)
Lemma factory_spec c s v :
  wf s → accepts c (heap s) v = true →
  ∃ k w s', v = VRef k ∧ factory c v s = Return (VRef w) s' ∧
    wf s' ∧ extends s s' ∧
    cached s' k c = VRef w ∧ heap s' !! w = Some (wrapperObj c v) ∧
    ((cached s k c = VRef w ∧ s' = s) ∨
     (cached s k c = VUndefined ∧ w = length (heap s) ∧
      heap s' = heap s ++ [wrapperObj c v] ∧
      ∀ k' c', (k', c') ≠ (k, c) → cached s' k' c' = cached s k' c')).
Proof.
  intros Hwf Ha. rewrite (factory_accepts c s v Ha).
  destruct (isType_ref _ _ (accepts_isType _ _ _ Ha)) as (k & -> & Hk).
  exists k.
  destruct (wf_slots s Hwf k c) as [Hu|(w & Hw & Hhw)].
  2: { exists w, s. rewrite (lookupOrMake_hit s k c _ w Hw).
       split; [done|]. split; [done|]. split; [done|].
       split; [apply extends_refl|]. split; [done|]. split; [done|]. by left. }
  assert (∃ s0 m, wf s0 ∧ extends s s0 ∧ heap s0 = heap s ∧
            (∀ k' c', cached s0 k' c' = cached s k' c') ∧
            wrapperCache s0 !! k = Some m ∧
            lookupOrMake (VRef k) c (construct c) s =
            lookupOrMake (VRef k) c (construct c) s0)
    as (s0 & m & Hwf0 & Hext0 & Hh0 & Hc0 & Hm0 & ->).
  { destruct (wrapperCache s !! k) as [m|] eqn:Hm.
    - exists s, m. split; [done|]. split; [apply extends_refl|]. done.
    - exists (withFreshMap s k), (length (cacheMaps s)).
      split; [by apply wf_withFreshMap|]. split.
      { split; [done|]. intros k' c' w. by rewrite cached_withFreshMap. }
      split; [done|]. split; [intros; by apply cached_withFreshMap|].
      split; [simpl; by rewrite lookup_insert_eq|].
      by apply lookupOrMake_fresh_map. }
  assert (accepts c (heap s0) (VRef k) = true) as Ha0 by (by rewrite Hh0).
  assert (cached s0 k c = VUndefined) as Hu0 by (by rewrite Hc0).
  destruct (lookupOrMake_fill s0 k c (construct c) m Hwf0 Hm0 Hu0
              (construct_accepts c s0 _ Ha0))
    as (s' & Hrun & Hh & Hcache & Hlen & Hcached).
  destruct (wf_fill s0 s' k c Hwf0 Ha0 Hu0 Hh Hcache Hlen Hcached)
    as [Hwf' Hext'].
  exists (length (heap s)), s'. rewrite <- Hh0 at 1.
  split; [done|]. split; [done|]. split; [done|].
  split; [by eapply extends_trans|]. split.
  { rewrite Hcached, decide_True by done. by rewrite Hh0. }
  split.
  { rewrite Hh, Hh0. rewrite lookup_app_r by lia. by rewrite Nat.sub_diag. }
  right. split; [done|]. split; [done|]. split; [by rewrite Hh, Hh0|].
  intros k' c' Hne. rewrite Hcached, decide_False; [apply Hc0|].
  intros [-> ->]. done.
Qed.

End Constructors.

(** ** Every call keeps the invariants *)

Section Soundness.

Lemma sound_bind {A B} pre mid post (m : M A) (k : A → M B) :
  sound pre mid m → (∀ a, sound (mid a) post (k a)) →
  sound pre post (m ≫= k).
Proof.
  intros Hm Hk s Hwf. specialize (Hm s Hwf). munfold.
  destruct (m s) as [a s1|e s1|]; [|done..].
  destruct Hm as (Hwf1 & Hext1 & Hmid).
  specialize (Hk a s1 Hwf1).
  destruct (k a s1) as [b s2|e s2|].
  - destruct Hk as (Hwf2 & Hext2 & Hpost).
    split; [done|]. split; [by eapply extends_trans|]. auto.
  - destruct Hk as (Hwf2 & Hext2). split; [done|]. by eapply extends_trans.
  - intros Hpre. by apply Hk, Hmid.
Qed.

Lemma wf_alloc s o :
  wf s →
  (∀ t, ofTypeOf o = Some t →
     isType (heap s) t = true ∧ (o = ONonNull t → isNonNullType (heap s) t = false)) →
  wf (mkState (heap s ++ [o]) (cacheMaps s) (wrapperCache s)) ∧
  extends s (mkState (heap s ++ [o]) (cacheMaps s) (wrapperCache s)).
Proof.
  intros Hwf Ho. split; [split|split]; simpl.
  - apply wf_heap_snoc; [apply (wf_types s Hwf)|done].
  - apply (wf_maps s Hwf).
  - apply (wf_inj s Hwf).
  - intros k c. change (cached (mkState _ _ _) k c) with (cached s k c).
    destruct (wf_slots s Hwf k c) as [Hu|(w & Hw & Hhw)]; [by left|].
    right. exists w. split; [done|]. by apply lookup_app_l_Some.
  - by apply prefix_app_r.
  - done.
Qed.

Lemma valid_alloc h o : valid (h ++ [o]) (VRef (length h)).
Proof. unfold valid. simpl. rewrite length_app. simpl. lia. Qed.

Lemma sound_alloc_plain o :
  ofTypeOf o = None →
  sound (λ _, True) (λ w s', valid (heap s') w) (alloc o).
Proof.
  intros Ho s Hwf. unfold alloc.
  destruct (wf_alloc s o Hwf) as [Hwf' Hext]; [by rewrite Ho|].
  split; [done|]. split; [done|]. intros _. apply valid_alloc.
Qed.

Lemma sound_rejected {A} (m : M A) h v what pre post s :
  m s = assertion h v what s → wf s →
  (pre s → valid (heap s) v) → h = heap s →
  match m s with
  | Return a s' => wf s' ∧ extends s s' ∧ (pre s → post a s')
  | Throw _ s' => wf s' ∧ extends s s'
  | Diverge => ¬ pre s
  end.
Proof.
  intros -> Hwf Hpre ->.
  destruct (assertion_outcome (A:=A) (heap s) s v what) as [[msg Hthrow]|Hdiv].
  - rewrite Hthrow. split; [done|apply extends_refl].
  - rewrite Hdiv. intros Hp.
    destruct (assertion_throws (A:=A) s v what Hwf (Hpre Hp)) as [msg Hthrow].
    congruence.
Qed.

Lemma sound_factory c v :
  sound (λ s, valid (heap s) v) (λ w s', valid (heap s') w) (factory c v).
Proof.
  intros s Hwf. destruct (accepts c (heap s) v) eqn:Ha.
  - destruct (factory_spec c s v Hwf Ha)
      as (k & w & s' & -> & -> & Hwf' & Hext & _ & Hw & _).
    split; [done|]. split; [done|]. intros _. by eapply lookup_lt_Some.
  - apply (sound_rejected (factory c v) (heap s) v (expected c)
             (λ s, valid (heap s) v) (λ w s', valid (heap s') w) s);
      [by apply factory_rejects|done..].
Qed.

Lemma sound_construct c v :
  sound (λ s, valid (heap s) v) (λ w s', valid (heap s') w) (construct c v).
Proof.
  intros s Hwf. destruct (accepts c (heap s) v) eqn:Ha.
  - rewrite (construct_accepts c s v Ha). unfold alloc.
    destruct (wf_alloc s (wrapperObj c v) Hwf) as [Hwf' Hext].
    { intros t Ht. assert (t = v) as -> by (destruct c; simpl in Ht; congruence).
      split; [by eapply accepts_isType|].
      destruct c; simpl; [done|]. intros _.
      by apply isNullableType_spec in Ha as [_ ?]. }
    split; [done|]. split; [done|]. intros _. apply valid_alloc.
  - apply (sound_rejected (construct c v) (heap s) v (expected c)
             (λ s, valid (heap s) v) (λ w s', valid (heap s') w) s);
      [by apply construct_rejects|done..].
Qed.

Lemma sound_throw {A} pre post e : sound (A:=A) pre post (throw e).
Proof. intros s Hwf. unfold throw. split; [done|apply extends_refl]. Qed.

Lemma sound_ret {A} (pre : state → Prop) (post : A → state → Prop) a :
  (∀ s, pre s → post a s) → sound pre post (mret a).
Proof.
  intros Hp s Hwf. munfold. split; [done|]. split; [apply extends_refl|auto].
Qed.

Lemma sound_wrapStep v ch :
  sound (λ s, valid (heap s) v) (λ w s', valid (heap s') w) (wrapStep v ch).
Proof.
  unfold wrapStep. destruct (Ascii.eqb ch "]"); [apply (sound_factory KeyList)|].
  destruct (Ascii.eqb ch "!"); [apply (sound_factory KeyNonNull)|].
  apply sound_throw.
Qed.

Lemma sound_reduce l : ∀ v,
  sound (λ s, valid (heap s) v) (λ w s', valid (heap s') w)
        (reduce wrapStep l v).
Proof.
  induction l as [|ch rest IH]; intros v; simpl.
  - by apply sound_ret.
  - eapply sound_bind; [apply sound_wrapStep|]. intros a. apply IH.
Qed.

Lemma sound_wrapType v spec :
  sound (λ s, valid (heap s) v) (λ w s', valid (heap s') w) (wrapType v spec).
Proof.
  unfold wrapType.
  eapply (sound_bind _ (λ _ s, valid (heap s) v)).
  - unfold invariant. destruct (negb _); [by apply sound_ret|apply sound_throw].
  - intros _. apply sound_reduce.
Qed.

Lemma sound_run c :
  sound (validCall c) (λ w s', valid (heap s') w) (run c).
Proof.
  destruct c; simpl.
  - by apply sound_alloc_plain.
  - by apply sound_alloc_plain.
  - apply (sound_factory KeyList).
  - apply (sound_construct KeyList).
  - apply (sound_factory KeyNonNull).
  - apply (sound_construct KeyNonNull).
  - apply sound_wrapType.
Qed.

Lemma after_wf c s s' : wf s → after c s = Some s' → wf s' ∧ extends s s'.
Proof.
  intros Hwf. unfold after. pose proof (sound_run c s Hwf) as Hs.
  destruct (run c s) as [a s1|e s1|]; [| |done]; intros [= <-]; tauto.
Qed.

Lemma afterAll_wf cs : ∀ s s',
  wf s → afterAll cs s = Some s' → wf s' ∧ extends s s'.
Proof.
  induction cs as [|c rest IH]; intros s s' Hwf; simpl.
  - intros [= <-]. split; [done|apply extends_refl].
  - destruct (after c s) as [s1|] eqn:Hc; [simpl|done]. intros Hrest.
    destruct (after_wf c s s1 Hwf Hc) as [Hwf1 Hext1].
    destruct (IH s1 s' Hwf1 Hrest) as [Hwf' Hext'].
    split; [done|by eapply extends_trans].
Qed.

Lemma reachable_wf s : reachable s → wf s.
Proof.
  induction 1 as [|s c s' _ IH Hc]; [apply wf_init|].
  by destruct (after_wf c s s' IH Hc).
Qed.

End Soundness.

(** ** Memoisation *)

Section Memoisation.

Lemma accepts_later c s s' v :
  wf s → extends s s' → accepts c (heap s) v = true →
  accepts c (heap s') v = true.
Proof.
  intros Hwf [[e He] _] Ha. rewrite He.
  pose proof (isType_valid _ _ (accepts_isType _ _ _ Ha)) as Hv.
  destruct c; simpl in *; [by apply isType_app|by rewrite isNullableType_app].
Qed.

(** What is known of a factory call that returned. *)
Lemma factory_result c s v w s' :
  wf s → factory c v s = Return w s' →
  ∃ k wl, v = VRef k ∧ w = VRef wl ∧ accepts c (heap s) v = true ∧
    wf s' ∧ extends s s' ∧ cached s' k c = VRef wl ∧
    heap s' !! wl = Some (wrapperObj c v).
Proof.
  intros Hwf Hrun. destruct (accepts c (heap s) v) eqn:Ha.
  - destruct (factory_spec c s v Hwf Ha)
      as (k & wl & s1 & -> & Hrun' & Hwf' & Hext & Hc & Hw & _).
    rewrite Hrun' in Hrun. injection Hrun as <- <-. by exists k, wl.
  - rewrite (factory_rejects c s v Ha) in Hrun.
    destruct (assertion_outcome (A:=value) (heap s) s v (expected c))
      as [[msg Ht]|Hd]; congruence.
Qed.

(** Once a slot is filled, the factory returns its content in every
    later store, and leaves that store alone. *)
Lemma factory_cached c s k w :
  accepts c (heap s) (VRef k) = true → cached s k c = VRef w →
  factory c (VRef k) s = Return (VRef w) s.
Proof.
  intros Ha Hc. rewrite (factory_accepts c s _ Ha). by apply lookupOrMake_hit.
Qed.

Lemma factory_again c s X w s1 cs s2 :
  wf s → factory c X s = Return w s1 → afterAll cs s1 = Some s2 →
  factory c X s2 = Return w s2.
Proof.
  intros Hwf Hrun Hcs.
  destruct (factory_result c s X w s1 Hwf Hrun)
    as (k & wl & -> & -> & Ha & Hwf1 & Hext1 & Hc1 & _).
  destruct (afterAll_wf cs s1 s2 Hwf1 Hcs) as [Hwf2 Hext2].
  apply factory_cached.
  - eapply accepts_later; [exact Hwf| |exact Ha]. by eapply extends_trans.
  - by apply (ext_cached _ _ Hext2).
Qed.

Lemma wrapperObj_inj c c' v v' :
  wrapperObj c v = wrapperObj c' v' → c = c' ∧ v = v'.
Proof. destruct c, c'; simpl; intros [=]; by subst. Qed.

Lemma factory_keyed c c' s X Y w w' s1 cs s2 s3 :
  wf s → factory c X s = Return w s1 → afterAll cs s1 = Some s2 →
  factory c' Y s2 = Return w' s3 → w = w' → X = Y ∧ c = c'.
Proof.
  intros Hwf Hrun Hcs Hrun' <-.
  destruct (factory_result c s X w s1 Hwf Hrun)
    as (k & wl & -> & -> & _ & Hwf1 & _ & _ & Hw1).
  destruct (afterAll_wf cs s1 s2 Hwf1 Hcs) as [Hwf2 [Hh2 _]].
  destruct (factory_result c' s2 Y _ s3 Hwf2 Hrun')
    as (k' & wl' & -> & [= <-] & _ & _ & [Hh3 _] & _ & Hw3).
  assert (heap s3 !! wl = Some (wrapperObj c (VRef k))) as Hw.
  { apply (deref_prefix (heap s1) _ (VRef wl)); [by etrans|done]. }
  rewrite Hw in Hw3. injection Hw3 as Heq.
  apply wrapperObj_inj in Heq as [-> ->]. done.
Qed.

(** [new]: a fresh object, the cache untouched. *)
Lemma construct_spec c s X :
  wf s → accepts c (heap s) X = true →
  ∃ s1, construct c X s = Return (VRef (length (heap s))) s1 ∧
    heap s1 = heap s ++ [wrapperObj c X] ∧
    cacheMaps s1 = cacheMaps s ∧ wrapperCache s1 = wrapperCache s ∧
    wf s1 ∧ extends s s1.
Proof.
  intros Hwf Ha. rewrite (construct_accepts c s X Ha). unfold alloc.
  eexists. split; [reflexivity|]. split; [done|]. split; [done|]. split; [done|].
  apply wf_alloc; [done|].
  intros t Ht. assert (t = X) as -> by (destruct c; simpl in Ht; congruence).
  split; [by eapply accepts_isType|].
  destruct c; simpl; [done|]. intros _.
  by apply isNullableType_spec in Ha as [_ ?].
Qed.

Lemma cached_in_heap s k c w : wf s → cached s k c = VRef w → w < length (heap s).
Proof.
  intros Hwf Hc. destruct (wf_slots s Hwf k c) as [Hu|(w' & Hw & Hhw)];
    [congruence|]. rewrite Hc in Hw. injection Hw as <-.
  by eapply lookup_lt_Some.
Qed.

Lemma new_bypasses_cache c s X :
  wf s → accepts c (heap s) X = true →
  ∃ n s1, construct c X s = Return n s1 ∧
    deref (heap s) n = None ∧
    deref (heap s1) n = Some (wrapperObj c X) ∧
    cacheMaps s1 = cacheMaps s ∧ wrapperCache s1 = wrapperCache s ∧
    (∀ k c', cached s1 k c' ≠ n) ∧
    (∀ w s2, factory c X s1 = Return w s2 → w ≠ n) ∧
    (∀ w, factory c X s = Return w s →
       w ≠ n ∧ factory c X s1 = Return w s1).
Proof.
  intros Hwf Ha.
  destruct (construct_spec c s X Hwf Ha)
    as (s1 & Hrun & Hh & Hm & Hc & Hwf1 & Hext1).
  exists (VRef (length (heap s))), s1. split; [done|].
  split; [simpl; by apply lookup_ge_None_2|].
  split; [simpl; rewrite Hh, lookup_app_r by lia; by rewrite Nat.sub_diag|].
  split; [done|]. split; [done|].
  assert (∀ k c', cached s1 k c' ≠ VRef (length (heap s))) as Hnot.
  { intros k c' Hk.
    assert (cached s k c' = VRef (length (heap s))) as Hk'.
    { unfold cached in *. by rewrite Hm, Hc in Hk. }
    apply (cached_in_heap s k c' _ Hwf) in Hk'. lia. }
  split; [done|]. split.
  - intros w s2 Hf ->.
    destruct (factory_result c s1 X _ s2 Hwf1 Hf)
      as (k & wl & -> & [= <-] & Ha1 & _ & _ & _ & Hw).
    destruct (factory_spec c s1 _ Hwf1 Ha1)
      as (k' & w' & s2' & [= <-] & Hf' & _ & _ & _ & _ & Hcase).
    rewrite Hf' in Hf. injection Hf as -> ->.
    destruct Hcase as [[Hhit _]|(_ & Hw' & _)].
    + by apply Hnot in Hhit.
    + rewrite Hh, length_app in Hw'. simpl in Hw'. lia.
  - intros w Hf.
    destruct (factory_result c s X w s Hwf Hf)
      as (k & wl & -> & -> & _ & _ & _ & Hcw & Hw).
    split.
    + intros [= ->]. apply lookup_lt_Some in Hw. lia.
    + apply factory_cached; [exact (accepts_later c s s1 _ Hwf Hext1 Ha)|].
      by apply (ext_cached _ _ Hext1).
Qed.

End Memoisation.

(** * The claims *)

Lemma reachable_afterAll cs : ∀ s s',
  reachable s → afterAll cs s = Some s' → reachable s'.
Proof.
  induction cs as [|c rest IH]; intros s s' Hs; simpl.
  - by intros [= <-].
  - destruct (after c s) as [s1|] eqn:Hc; [simpl|done].
    apply IH. by eapply reachable_step.
Qed.

(** The store [s'] is what the calls [cs] leave behind from [init]. *)
Ltac reach cs :=
  apply (reachable_afterAll cs init); [apply reachable_init|vm_compute; reflexivity].

(** C1. Identity memoization: on every store the module can reach and
    for every type [X], the call [GraphQLList(X)] returns some wrapper
    [w], and every later call [GraphQLList(X)], whatever calls were made
    in between, returns that same [w] and changes nothing; likewise
    [GraphQLNonNull(X)] for a nullable [X].  The cache is keyed by the
    instance and the kind: a later factory call returns the same wrapper
    only if it wraps the same instance with the same kind, so two named
    types that merely share a name get different wrappers. *)
Theorem C1_identity_memoization s X :
  reachable s → isType (heap s) X = true →
  (∃ w s1, GraphQLList X s = Return w s1 ∧
     ∀ cs s2, afterAll cs s1 = Some s2 → GraphQLList X s2 = Return w s2) ∧
  (isNullableType (heap s) X = true →
   ∃ w s1, GraphQLNonNull X s = Return w s1 ∧
     ∀ cs s2, afterAll cs s1 = Some s2 → GraphQLNonNull X s2 = Return w s2) ∧
  (∀ c c' Y w w' s1 cs s2 s3,
     factory c X s = Return w s1 → afterAll cs s1 = Some s2 →
     factory c' Y s2 = Return w' s3 → w = w' → X = Y ∧ c = c').
Proof.
  intros Hs%reachable_wf HX. split; [|split].
  - destruct (factory_spec KeyList s X Hs HX)
      as (k & w & s1 & -> & Hrun & _).
    exists (VRef w), s1. split; [exact Hrun|].
    intros cs s2. by apply (factory_again KeyList s).
  - intros HN. destruct (factory_spec KeyNonNull s X Hs HN)
      as (k & w & s1 & -> & Hrun & _).
    exists (VRef w), s1. split; [exact Hrun|].
    intros cs s2. by apply (factory_again KeyNonNull s).
  - intros c c' Y w w' s1 cs s2 s3. by apply factory_keyed.
Qed.

Lemma C1_identity_memoization_witness :
  (∃ w s1, GraphQLList (VRef 0) twoObjects = Return w s1 ∧
     ∀ cs s2, afterAll cs s1 = Some s2 →
       GraphQLList (VRef 0) s2 = Return w s2) ∧
  (∃ w s1, GraphQLNonNull (VRef 0) twoObjects = Return w s1 ∧
     ∀ cs s2, afterAll cs s1 = Some s2 →
       GraphQLNonNull (VRef 0) s2 = Return w s2) ∧
  (∀ c c' Y w w' s1 cs s2 s3,
     factory c (VRef 0) twoObjects = Return w s1 → afterAll cs s1 = Some s2 →
     factory c' Y s2 = Return w' s3 → w = w' → VRef 0 = Y ∧ c = c').
Proof.
  assert (reachable twoObjects) as Hr
    by reach [CNewNamedType Object "A"; CNewNamedType Object "A"].
  destruct (C1_identity_memoization twoObjects (VRef 0) Hr eq_refl)
    as (HL & HN & HK).
  split; [exact HL|]. split; [exact (HN eq_refl)|exact HK].
Defined.

(** C2. [GraphQLNonNull] over a non-null type fails: on every reachable
    store, for every [v] that is a [GraphQLNonNull], both
    [GraphQLNonNull(v)] and [new GraphQLNonNull(v)] throw an [Error] and
    leave the store as it was; whenever either returns, its argument was
    a nullable type; and every named type and every list is accepted,
    the result being a [GraphQLNonNull] whose [ofType] is the
    argument. *)
Theorem C2_nonNull_of_nonNull_fails s v :
  reachable s → isNonNullType (heap s) v = true →
  (∃ msg, GraphQLNonNull v s = Throw (Error msg) s) ∧
  (∃ msg, new_GraphQLNonNull v s = Throw (Error msg) s) ∧
  (∀ u w s', GraphQLNonNull u s = Return w s' ∨
             new_GraphQLNonNull u s = Return w s' →
     isNullableType (heap s) u = true) ∧
  (∀ u, isNamedType (heap s) u = true ∨ isListType (heap s) u = true →
     ∃ w s', GraphQLNonNull u s = Return w s' ∧
       deref (heap s') w = Some (ONonNull u)).
Proof.
  intros Hs%reachable_wf Hv.
  assert (accepts KeyNonNull (heap s) v = false) as Hrej.
  { simpl. unfold isNullableType. rewrite Hv. apply andb_false_r. }
  assert (valid (heap s) v) as Hvalid.
  { unfold isNonNullType in Hv.
    destruct (deref (heap s) v) eqn:Hd; [by eapply deref_valid|done]. }
  split; [|split; [|split]].
  - change (GraphQLNonNull v s) with (factory KeyNonNull v s).
    rewrite (factory_rejects _ _ _ Hrej). by apply assertion_throws.
  - change (new_GraphQLNonNull v s) with (construct KeyNonNull v s).
    rewrite (construct_rejects _ _ _ Hrej). by apply assertion_throws.
  - intros u w s' Hret.
    destruct (accepts KeyNonNull (heap s) u) eqn:Hu; [exact Hu|].
    exfalso.
    destruct (assertion_outcome (A:=value) (heap s) s u (expected KeyNonNull))
      as [[msg Ht]|Hd]; destruct Hret as [Hret|Hret].
    + change (GraphQLNonNull u s) with (factory KeyNonNull u s) in Hret.
      rewrite (factory_rejects _ _ _ Hu) in Hret. congruence.
    + change (new_GraphQLNonNull u s) with (construct KeyNonNull u s) in Hret.
      rewrite (construct_rejects _ _ _ Hu) in Hret. congruence.
    + change (GraphQLNonNull u s) with (factory KeyNonNull u s) in Hret.
      rewrite (factory_rejects _ _ _ Hu) in Hret. congruence.
    + change (new_GraphQLNonNull u s) with (construct KeyNonNull u s) in Hret.
      rewrite (construct_rejects _ _ _ Hu) in Hret. congruence.
  - intros u Hu.
    assert (accepts KeyNonNull (heap s) u = true) as Ha.
    { simpl. unfold isNullableType, isNamedType, isWrappingType, isType,
        isScalarType, isObjectType, isInterfaceType, isUnionType, isEnumType,
        isInputObjectType, isListType, isNonNullType in *.
      destruct (deref (heap s) u) as [[[] ?| | |]|]; simpl in *;
        try done; by destruct Hu. }
    destruct (factory_spec KeyNonNull s u Hs Ha)
      as (k & w & s' & -> & Hrun & _ & _ & _ & Hw & _).
    by exists (VRef w), s'.
Qed.

Lemma C2_nonNull_of_nonNull_fails_witness :
  (∃ msg, GraphQLNonNull (VRef 1) objectAndNonNull
          = Throw (Error msg) objectAndNonNull) ∧
  (∃ msg, new_GraphQLNonNull (VRef 1) objectAndNonNull
          = Throw (Error msg) objectAndNonNull) ∧
  (∀ u w s', GraphQLNonNull u objectAndNonNull = Return w s' ∨
             new_GraphQLNonNull u objectAndNonNull = Return w s' →
     isNullableType (heap objectAndNonNull) u = true) ∧
  (∀ u, isNamedType (heap objectAndNonNull) u = true ∨
        isListType (heap objectAndNonNull) u = true →
     ∃ w s', GraphQLNonNull u objectAndNonNull = Return w s' ∧
       deref (heap s') w = Some (ONonNull u)).
Proof.
  apply (C2_nonNull_of_nonNull_fails objectAndNonNull (VRef 1)).
  - reach [CNewNamedType Object "Object"; CGraphQLNonNull (VRef 0)].
  - reflexivity.
Defined.

(** ** [wrapType] *)

Section WrapType.

Lemma wrapType_nonempty v c rest :
  wrapType v (String c rest) = reduce wrapStep (c :: list_ascii_of_string rest) v.
Proof. reflexivity. Qed.

Lemma reduce_snoc {A B} (f : B → A → M B) l x : ∀ acc s,
  reduce f (l ++ [x]) acc s = (acc' ← reduce f l acc; f acc' x) s.
Proof.
  induction l as [|y l IH]; intros acc s; simpl; munfold.
  - by destruct (f acc x s).
  - destruct (f acc y s) as [a s1|e s1|]; [|done..]. apply IH.
Qed.

Lemma wrapStep_marker v ch :
  wrapStep v ch =
  if Ascii.eqb ch "]" then factory KeyList v
  else if Ascii.eqb ch "!" then factory KeyNonNull v
  else throw (Error ("Invalid wrapSpec character: " +:+ String ch "")).
Proof. reflexivity. Qed.

Lemma wrapStep_result s v ch w s' :
  wf s → wrapStep v ch s = Return w s' →
  ∃ c, factory c v s = Return w s' ∧
       ch = match c with KeyList => "]" | KeyNonNull => "!" end%char.
Proof.
  intros Hwf. rewrite wrapStep_marker.
  destruct (Ascii.eqb_spec ch "]") as [->|_]; [by exists KeyList|].
  destruct (Ascii.eqb_spec ch "!") as [->|_]; [by exists KeyNonNull|done].
Qed.

Lemma isNonNullType_wrapper h w c v :
  h !! w = Some (wrapperObj c v) →
  isNonNullType h (VRef w) = match c with KeyList => false | KeyNonNull => true end.
Proof. unfold isNonNullType. simpl. intros ->. by destruct c. Qed.

Lemma isType_wrapper h w c v :
  h !! w = Some (wrapperObj c v) → isType h (VRef w) = true.
Proof.
  intros Hw. apply isType_deref. eexists. split; [exact Hw|]. by destruct c.
Qed.

Lemma getNamedType_wrapper h w c v :
  wf_heap h → h !! w = Some (wrapperObj c v) →
  getNamedType h (VRef w) = getNamedType h v.
Proof.
  intros Hwf Hw. rewrite (getNamedType_unfold h Hwf (VRef w)).
  simpl. rewrite Hw. by destruct c.
Qed.

(** Whatever [reduce] returns unwraps to what its start unwraps to. *)
Lemma reduce_getNamedType l : ∀ s v w s',
  wf s → reduce wrapStep l v s = Return w s' →
  wf s' ∧ extends s s' ∧
  (valid (heap s) v → getNamedType (heap s') w = getNamedType (heap s) v).
Proof.
  induction l as [|ch rest IH]; intros s v w s' Hwf; simpl; munfold.
  - intros [= <- <-]. split; [done|]. split; [apply extends_refl|done].
  - destruct (wrapStep v ch s) as [v1 s1| |] eqn:Hstep; [|done..].
    intros Hrest.
    destruct (wrapStep_result s v ch v1 s1 Hwf Hstep) as (c & Hf & _).
    destruct (factory_result c s v v1 s1 Hwf Hf)
      as (k & wl & -> & -> & Ha & Hwf1 & Hext1 & _ & Hw).
    destruct (IH s1 (VRef wl) w s' Hwf1 Hrest) as (Hwf' & Hext' & Hn).
    split; [done|]. split; [by eapply extends_trans|]. intros Hv.
    rewrite Hn by (by eapply lookup_lt_Some).
    rewrite (getNamedType_wrapper _ _ _ _ (wf_types s1 Hwf1) Hw).
    apply getNamedType_later; [apply (wf_types s Hwf)|apply Hext1|done].
Qed.

(** A legal marker string is accepted. *)
Lemma reduce_legal l : ∀ s v,
  wf s → isType (heap s) v = true →
  legalMarkers (isNonNullType (heap s) v) l = true →
  ∃ w s', reduce wrapStep l v s = Return w s'.
Proof.
  induction l as [|ch rest IH]; intros s v Hwf Hty Hlegal; simpl; munfold.
  - by eexists _, _.
  - simpl in Hlegal. rewrite wrapStep_marker.
    assert (∃ c, (if Ascii.eqb ch "]" then factory KeyList v
                  else if Ascii.eqb ch "!" then factory KeyNonNull v
                  else throw (Error ("Invalid wrapSpec character: " +:+ String ch "")))
                 = factory c v ∧ accepts c (heap s) v = true ∧
                 legalMarkers (match c with KeyList => false | KeyNonNull => true end)
                   rest = true) as (c & -> & Ha & Hrest).
    { destruct (Ascii.eqb ch "]"); [by exists KeyList|].
      destruct (Ascii.eqb ch "!"); [|done].
      apply andb_true_iff in Hlegal as [Hnn%negb_true_iff Hrest].
      exists KeyNonNull. split; [done|]. split; [|done].
      by apply isNullableType_spec. }
    destruct (factory_spec c s v Hwf Ha)
      as (k & w & s1 & -> & -> & Hwf1 & _ & _ & Hw & _).
    apply (IH s1 (VRef w) Hwf1); [by eapply isType_wrapper|].
    by rewrite (isNonNullType_wrapper _ _ _ _ Hw).
Qed.

Lemma getNamedType_named h v : isNamedType h v = true → getNamedType h v = Some v.
Proof.
  unfold isNamedType, isWrappingType, isType, isScalarType, isObjectType,
    isInterfaceType, isUnionType, isEnumType, isInputObjectType, isListType,
    isNonNullType, getNamedType.
  destruct v as [| |l]; simpl; [done..|].
  destruct (length h) as [|n] eqn:Hn.
  { apply nil_length_inv in Hn as ->. by rewrite lookup_nil. }
  simpl. by destruct (h !! l) as [[[] ?| | |]|].
Qed.

Lemma isNamedType_nullable h v :
  isNamedType h v = true → isType h v = true ∧ isNonNullType h v = false.
Proof.
  unfold isNamedType, isWrappingType.
  intros [? [_ ?]%negb_true_iff%orb_false_iff]%andb_true_iff. done.
Qed.

End WrapType.

(** C3. [wrapType] is a left fold over the characters of the spec,
    starting from the base type: a one-character spec is one step, a
    longer spec is its first step followed by [wrapType] of the rest on
    the result, equally all but the last character followed by the last
    step; a step is [GraphQLList] for [']'] and [GraphQLNonNull] for
    ['!'].  On every reachable store and for an object type [X],
    [wrapType(X, "!]")] returns a list whose [ofType] is a non-null whose
    [ofType] is [X] itself: [isListType] holds of it, [isNonNullType]
    does not, and [getNamedType] gives [X] back. *)
Theorem C3_wrapType_folds s X name :
  reachable s → deref (heap s) X = Some (ONamed Object name) →
  (∀ v c s0, wrapType v (String c "") s0 = wrapStep v c s0) ∧
  (∀ v c c' rest s0,
     wrapType v (String c (String c' rest)) s0 =
     (t ← wrapStep v c; wrapType t (String c' rest)) s0) ∧
  (∀ v c rest c' s0,
     wrapType v (String c rest +:+ String c' "") s0 =
     (t ← wrapType v (String c rest); wrapStep t c') s0) ∧
  (∀ v, wrapStep v "]" = GraphQLList v ∧ wrapStep v "!" = GraphQLNonNull v) ∧
  ∃ l nn s',
    wrapType X "!]" s = Return l s' ∧
    deref (heap s') l = Some (OList nn) ∧
    deref (heap s') nn = Some (ONonNull X) ∧
    isListType (heap s') l = true ∧
    isNonNullType (heap s') l = false ∧
    getNamedType (heap s') l = Some X.
Proof.
  intros Hs%reachable_wf HX. split; [|split; [|split; [|split]]].
  - intros v c s0. rewrite wrapType_nonempty. simpl. munfold.
    by destruct (wrapStep v c s0).
  - intros v c c' rest s0. by rewrite !wrapType_nonempty.
  - intros v c rest c' s0.
    change (String c rest +:+ String c' "")
      with (String c (rest +:+ String c' "")).
    rewrite !wrapType_nonempty.
    assert (list_ascii_of_string (rest +:+ String c' "")
            = list_ascii_of_string rest ++ [c']) as ->.
    { induction rest as [|a rest IH]; simpl; [done|]. by rewrite IH. }
    by rewrite app_comm_cons, reduce_snoc.
  - done.
  - assert (accepts KeyNonNull (heap s) X = true) as Ha.
    { simpl. unfold isNullableType, isType, isObjectType, isNonNullType,
        isScalarType. rewrite HX. by simpl. }
    destruct (factory_spec KeyNonNull s X Hs Ha)
      as (k & nn & s1 & -> & Hnn & Hwf1 & Hext1 & _ & Hhnn & _).
    assert (accepts KeyList (heap s1) (VRef nn) = true) as Ha1
      by (by eapply isType_wrapper).
    destruct (factory_spec KeyList s1 _ Hwf1 Ha1)
      as (k' & l & s2 & [= <-] & Hl & Hwf2 & Hext2 & _ & Hhl & _).
    exists (VRef l), (VRef nn), s2.
    assert (heap s2 !! nn = Some (ONonNull (VRef k))) as Hhnn2.
    { apply (deref_prefix (heap s1) _ (VRef nn)); [apply Hext2|done]. }
    split.
    { rewrite wrapType_nonempty. simpl. munfold.
      change (wrapStep (VRef k) "!" s) with (factory KeyNonNull (VRef k) s).
      rewrite Hnn.
      change (wrapStep (VRef nn) "]" s1) with (factory KeyList (VRef nn) s1).
      by rewrite Hl. }
    split; [done|]. split; [done|].
    split; [unfold isListType; simpl; by rewrite Hhl|].
    split; [unfold isNonNullType; simpl; by rewrite Hhl|].
    rewrite (getNamedType_wrapper _ _ KeyList _ (wf_types s2 Hwf2) Hhl).
    rewrite (getNamedType_wrapper _ _ KeyNonNull _ (wf_types s2 Hwf2) Hhnn2).
    apply getNamedType_named.
    unfold isNamedType, isWrappingType, isType, isObjectType, isListType,
      isNonNullType, isScalarType.
    assert (deref (heap s2) (VRef k) = Some (ONamed Object name)) as ->; [|done].
    apply (deref_prefix (heap s)); [|done].
    etrans; [apply Hext1|apply Hext2].
Qed.

Lemma C3_wrapType_folds_witness :
  ∃ l nn s',
    wrapType (VRef 0) "!]" twoObjects = Return l s' ∧
    deref (heap s') l = Some (OList nn) ∧
    deref (heap s') nn = Some (ONonNull (VRef 0)) ∧
    isListType (heap s') l = true ∧
    isNonNullType (heap s') l = false ∧
    getNamedType (heap s') l = Some (VRef 0).
Proof.
  apply (C3_wrapType_folds twoObjects (VRef 0) "A").
  - reach [CNewNamedType Object "A"; CNewNamedType Object "A"].
  - reflexivity.
Defined.

(** C4. Unwrap round trip: on every reachable store, for every named
    type [X] and every spec made of [']'] and ['!'], non-empty and
    without two ['!'] in a row, [wrapType(X, S)] returns, and
    [getNamedType] of the result is [X] itself; more generally
    [getNamedType] gives [X] back whenever [wrapType(X, S)] returns. *)
Theorem C4_unwrap_round_trip s X S :
  reachable s → isNamedType (heap s) X = true →
  (validSpec S = true →
   ∃ w s', wrapType X S s = Return w s' ∧ getNamedType (heap s') w = Some X) ∧
  (∀ w s', wrapType X S s = Return w s' → getNamedType (heap s') w = Some X).
Proof.
  intros Hs%reachable_wf HX.
  assert (∀ w s', wrapType X S s = Return w s' →
                  getNamedType (heap s') w = Some X) as Hround.
  { intros w s'. unfold wrapType, invariant. munfold.
    destruct (negb (S =? "")%string); [|done]. simpl. intros Hred.
    destruct (reduce_getNamedType _ s X w s' Hs Hred) as (_ & _ & ->).
    - by apply getNamedType_named.
    - apply isType_valid. by apply isNamedType_nullable in HX as [? _]. }
  split; [|exact Hround].
  intros [Hne Hlegal]%andb_true_iff.
  destruct (isNamedType_nullable _ _ HX) as [Hty Hnn].
  destruct (reduce_legal (list_ascii_of_string S) s X Hs Hty) as (w & s' & Hred).
  { by rewrite Hnn. }
  assert (wrapType X S s = Return w s') as Hrun.
  { unfold wrapType, invariant. munfold. by rewrite Hne. }
  exists w, s'. split; [done|]. by apply Hround.
Qed.

Lemma C4_unwrap_round_trip_witness :
  (∃ w s', wrapType (VRef 0) "!]!" twoObjects = Return w s' ∧
           getNamedType (heap s') w = Some (VRef 0)) ∧
  (∀ w s', wrapType (VRef 0) "!]!" twoObjects = Return w s' →
           getNamedType (heap s') w = Some (VRef 0)).
Proof.
  assert (reachable twoObjects) as Hr
    by reach [CNewNamedType Object "A"; CNewNamedType Object "A"].
  destruct (C4_unwrap_round_trip twoObjects (VRef 0) "!]!" Hr eq_refl)
    as (Hvalid & Hany).
  split; [exact (Hvalid eq_refl)|exact Hany].
Defined.

(** ** Rendering *)

Section Rendering.

Lemma append_cons x (a b : string) : String x a +:+ b = String x (a +:+ b).
Proof. reflexivity. Qed.

Lemma append_assoc (a b c : string) : (a +:+ b) +:+ c = a +:+ b +:+ c.
Proof.
  induction a as [|x a IH]; [done|]. rewrite !append_cons. by rewrite IH.
Qed.

Lemma append_order_differs (r : string) : r +:+ "!]" ≠ r +:+ "]!".
Proof.
  induction r as [|x r IH]; [done|]. rewrite !append_cons.
  intros [= H]. by apply IH.
Qed.

Lemma render_wrapper h c w v r :
  wf_heap h → h !! w = Some (wrapperObj c v) → JsString h v = Some r →
  JsString h (VRef w) =
  Some (match c with KeyList => "[" +:+ r +:+ "]" | KeyNonNull => r +:+ "!" end).
Proof.
  intros Hwf Hw Hr. rewrite (JsString_ref h Hwf w), Hw.
  destruct c; simpl; unfold listProto_toString, nonNullProto_toString;
    by rewrite Hr.
Qed.

Lemma render_object h w o t :
  wf_heap h → h !! w = Some o → ofTypeOf o = Some t →
  ∃ rt, JsString h t = Some rt.
Proof.
  intros Hwf Hw Ht.
  destruct (wf_heap_inner h Hwf (VRef w) o t Hw Ht) as [Hv _].
  by apply JsString_total.
Qed.

End Rendering.

(** C5. Rendering: on every reachable store and for every type [X],
    rendered [r], [GraphQLList(X)] renders as ["[" + r + "]"] and, when
    [X] is nullable, [GraphQLNonNull(X)] as [r + "!"]; every list and
    non-null object of the store renders its inner type in brackets,
    respectively followed by ["!"], whatever the nesting.  So
    [List(NonNull(X))] and [NonNull(List(X))] are two instances, rendered
    ["[" + r + "!]"] and ["[" + r + "]!"], which differ. *)
Theorem C5_rendering s X :
  reachable s → isType (heap s) X = true →
  ∃ r, JsString (heap s) X = Some r ∧
    (∃ w s', GraphQLList X s = Return w s' ∧
       JsString (heap s') w = Some ("[" +:+ r +:+ "]")) ∧
    (∀ w t, deref (heap s) w = Some (OList t) →
       ∃ rt, JsString (heap s) t = Some rt ∧
             JsString (heap s) w = Some ("[" +:+ rt +:+ "]")) ∧
    (∀ w t, deref (heap s) w = Some (ONonNull t) →
       ∃ rt, JsString (heap s) t = Some rt ∧
             JsString (heap s) w = Some (rt +:+ "!")) ∧
    (isNullableType (heap s) X = true →
     (∃ w s', GraphQLNonNull X s = Return w s' ∧
        JsString (heap s') w = Some (r +:+ "!")) ∧
     ∃ nn s1 listOfNonNull s2 l s3 nonNullOfList s4,
       GraphQLNonNull X s = Return nn s1 ∧
       GraphQLList nn s1 = Return listOfNonNull s2 ∧
       GraphQLList X s2 = Return l s3 ∧
       GraphQLNonNull l s3 = Return nonNullOfList s4 ∧
       listOfNonNull ≠ nonNullOfList ∧
       JsString (heap s4) listOfNonNull = Some ("[" +:+ r +:+ "!]") ∧
       JsString (heap s4) nonNullOfList = Some ("[" +:+ r +:+ "]!") ∧
       "[" +:+ r +:+ "!]" ≠ "[" +:+ r +:+ "]!").
Proof.
  intros Hs%reachable_wf HX.
  pose proof (isType_valid _ _ HX) as Hvalid.
  destruct (JsString_total _ (wf_types s Hs) X Hvalid) as [r Hr].
  exists r. split; [done|].
  assert (∀ c s0 s1 w, wf s0 → extends s s0 →
            factory c X s0 = Return w s1 →
            JsString (heap s1) w =
            Some (match c with KeyList => "[" +:+ r +:+ "]" | KeyNonNull => r +:+ "!" end))
    as Hrender.
  { intros c s0 s1 w Hwf0 Hext0 Hf.
    destruct (factory_result c s0 X w s1 Hwf0 Hf)
      as (k & wl & -> & -> & _ & Hwf1 & Hext1 & _ & Hw).
    apply (render_wrapper _ c wl (VRef k) r); [apply (wf_types s1 Hwf1)|done|].
    rewrite (JsString_later (heap s) (heap s1) (wf_types s Hs)); [done| |done].
    etrans; [apply Hext0|apply Hext1]. }
  split; [|split; [|split]].
  - destruct (factory_spec KeyList s X Hs HX) as (k & w & s' & -> & Hf & _).
    exists (VRef w), s'. split; [exact Hf|].
    by apply (Hrender KeyList s s' _ Hs (extends_refl s)).
  - intros [| |w] t Hw; simpl in Hw; [done..|].
    destruct (render_object _ w _ t (wf_types s Hs) Hw eq_refl) as [rt Hrt].
    exists rt. split; [done|].
    by apply (render_wrapper _ KeyList w t rt (wf_types s Hs)).
  - intros [| |w] t Hw; simpl in Hw; [done..|].
    destruct (render_object _ w _ t (wf_types s Hs) Hw eq_refl) as [rt Hrt].
    exists rt. split; [done|].
    by apply (render_wrapper _ KeyNonNull w t rt (wf_types s Hs)).
  - intros HN.
    destruct (factory_spec KeyNonNull s X Hs HN)
      as (k & nn & s1 & -> & Hf1 & Hwf1 & Hext1 & _ & Hnn & _).
    split.
    { exists (VRef nn), s1. split; [exact Hf1|].
      by apply (Hrender KeyNonNull s s1 _ Hs (extends_refl s)). }
    assert (accepts KeyList (heap s1) (VRef nn) = true) as Ha1
      by (by eapply isType_wrapper).
    destruct (factory_spec KeyList s1 (VRef nn) Hwf1 Ha1)
      as (? & ln & s2 & [= <-] & Hf2 & Hwf2 & Hext2 & _ & Hln & _).
    pose proof (extends_trans _ _ _ Hext1 Hext2) as Hext02.
    assert (accepts KeyList (heap s2) (VRef k) = true) as Ha2
      by (by apply (accepts_later KeyList s s2)).
    destruct (factory_spec KeyList s2 (VRef k) Hwf2 Ha2)
      as (? & l & s3 & [= <-] & Hf3 & Hwf3 & Hext3 & _ & Hl & _).
    assert (accepts KeyNonNull (heap s3) (VRef l) = true) as Ha3.
    { apply isNullableType_spec. split; [by eapply isType_wrapper|].
      by rewrite (isNonNullType_wrapper _ _ _ _ Hl). }
    destruct (factory_spec KeyNonNull s3 (VRef l) Hwf3 Ha3)
      as (? & nl & s4 & [= <-] & Hf4 & Hwf4 & Hext4 & _ & Hnl & _).
    pose proof (extends_trans _ _ _ Hext02 Hext3) as Hext03.
    exists (VRef nn), s1, (VRef ln), s2, (VRef l), s3, (VRef nl), s4.
    split; [exact Hf1|]. split; [exact Hf2|]. split; [exact Hf3|].
    split; [exact Hf4|].
    assert (heap s4 !! ln = Some (OList (VRef nn))) as Hln4.
    { apply (deref_prefix (heap s2) _ (VRef ln)); [|done].
      etrans; [apply Hext3|apply Hext4]. }
    assert (heap s4 !! nn = Some (ONonNull (VRef k))) as Hnn4.
    { apply (deref_prefix (heap s1) _ (VRef nn)); [|done].
      etrans; [apply Hext2|]. etrans; [apply Hext3|apply Hext4]. }
    assert (heap s4 !! l = Some (OList (VRef k))) as Hl4.
    { apply (deref_prefix (heap s3) _ (VRef l)); [apply Hext4|done]. }
    assert (JsString (heap s4) (VRef k) = Some r) as Hr4.
    { rewrite (JsString_later (heap s) (heap s4) (wf_types s Hs)); [done| |done].
      etrans; [apply Hext03|apply Hext4]. }
    split; [intros [= ->]; simpl in *; congruence|].
    split.
    { rewrite (render_wrapper _ KeyList ln (VRef nn) (r +:+ "!")
                 (wf_types s4 Hwf4) Hln4).
      - by rewrite append_assoc.
      - by apply (render_wrapper _ KeyNonNull nn (VRef k) r (wf_types s4 Hwf4)). }
    split.
    { rewrite (render_wrapper _ KeyNonNull nl (VRef l) ("[" +:+ r +:+ "]")
                 (wf_types s4 Hwf4) Hnl).
      - by rewrite !append_assoc.
      - by apply (render_wrapper _ KeyList l (VRef k) r (wf_types s4 Hwf4)). }
    change ("[" +:+ r +:+ "!]") with (String "[" (r +:+ "!]")).
    change ("[" +:+ r +:+ "]!") with (String "[" (r +:+ "]!")).
    intros [= H]. by apply (append_order_differs r).
Qed.

Lemma C5_rendering_witness :
  ∃ nn s1 listOfNonNull s2 l s3 nonNullOfList s4,
    GraphQLNonNull (VRef 0) twoObjects = Return nn s1 ∧
    GraphQLList nn s1 = Return listOfNonNull s2 ∧
    GraphQLList (VRef 0) s2 = Return l s3 ∧
    GraphQLNonNull l s3 = Return nonNullOfList s4 ∧
    listOfNonNull ≠ nonNullOfList ∧
    JsString (heap s4) listOfNonNull = Some "[A!]" ∧
    JsString (heap s4) nonNullOfList = Some "[A]!".
Proof.
  assert (reachable twoObjects) as Hr
    by reach [CNewNamedType Object "A"; CNewNamedType Object "A"].
  destruct (C5_rendering twoObjects (VRef 0) Hr eq_refl)
    as (r & Hr0 & _ & _ & _ & Hnullable).
  destruct (Hnullable eq_refl)
    as (_ & nn & s1 & ln & s2 & l & s3 & nl & s4 & H1 & H2 & H3 & H4 & Hne
        & Hln & Hnl & _).
  assert (r = "A") as -> by (vm_compute in Hr0; congruence).
  exists nn, s1, ln, s2, l, s3, nl, s4.
  repeat (split; [assumption|]). exact Hnl.
Defined.

(** C6. Exclusivity: for every heap and every value that is a type,
    exactly one of the 8 base-variant predicates holds (and none holds of
    a value that is no type); derived categories do overlap: a scalar is
    at once an input type, an output type, a leaf type and a nullable
    type. *)
Theorem C6_exactly_one_base_variant h v :
  isType h v = true →
  countBaseVariants h v = 1 ∧
  (∀ u, isType h u = false → countBaseVariants h u = 0) ∧
  (∀ name, deref h v = Some (ONamed Scalar name) →
     isInputType h v = Some true ∧ isOutputType h v = Some true ∧
     isLeafType h v = true ∧ isNullableType h v = true).
Proof.
  intros Hv. split; [|split].
  - revert Hv.
    unfold countBaseVariants, baseVariantPredicates, isType, isScalarType,
      isObjectType, isInterfaceType, isUnionType, isEnumType,
      isInputObjectType, isListType, isNonNullType. simpl.
    by destruct (deref h v) as [[[] ?| | |]|].
  - intros u.
    unfold countBaseVariants, baseVariantPredicates, isType, isScalarType,
      isObjectType, isInterfaceType, isUnionType, isEnumType,
      isInputObjectType, isListType, isNonNullType. simpl.
    by destruct (deref h u) as [[[] ?| | |]|].
  - intros name Hd.
    unfold isInputType, isOutputType, isLeafType, isNullableType, isType,
      isScalarType, isNonNullType.
    rewrite Hd. simpl.
    destruct (length h); simpl; by rewrite Hd.
Qed.

Lemma C6_exactly_one_base_variant_witness :
  countBaseVariants [ONamed Scalar "Scalar"] (VRef 0) = 1 ∧
  (∀ u, isType [ONamed Scalar "Scalar"] u = false →
     countBaseVariants [ONamed Scalar "Scalar"] u = 0) ∧
  (∀ name, deref [ONamed Scalar "Scalar"] (VRef 0) = Some (ONamed Scalar name) →
     isInputType [ONamed Scalar "Scalar"] (VRef 0) = Some true ∧
     isOutputType [ONamed Scalar "Scalar"] (VRef 0) = Some true ∧
     isLeafType [ONamed Scalar "Scalar"] (VRef 0) = true ∧
     isNullableType [ONamed Scalar "Scalar"] (VRef 0) = true).
Proof.
  apply (C6_exactly_one_base_variant [ONamed Scalar "Scalar"] (VRef 0)).
  reflexivity.
Defined.

(** C7. Recursive input/output classification: on every reachable store
    [isInputType] gives an answer for every value, and the answer is
    [true] exactly for a scalar, an enum, an input object, or a list or
    non-null whose immediate inner type is itself an input type;
    [isOutputType] likewise with scalar, object, interface, union and
    enum.  For an input object type [IO], [List(NonNull(IO))] is an input
    type and is not an output type. *)
Theorem C7_input_output_classification s v :
  reachable s →
  (∃ b, isInputType (heap s) v = Some b ∧
     (b = true ↔
      isScalarType (heap s) v = true ∨ isEnumType (heap s) v = true ∨
      isInputObjectType (heap s) v = true ∨
      ∃ t, (deref (heap s) v = Some (OList t) ∨
            deref (heap s) v = Some (ONonNull t)) ∧
           isInputType (heap s) t = Some true)) ∧
  (∃ b, isOutputType (heap s) v = Some b ∧
     (b = true ↔
      isScalarType (heap s) v = true ∨ isObjectType (heap s) v = true ∨
      isInterfaceType (heap s) v = true ∨ isUnionType (heap s) v = true ∨
      isEnumType (heap s) v = true ∨
      ∃ t, (deref (heap s) v = Some (OList t) ∨
            deref (heap s) v = Some (ONonNull t)) ∧
           isOutputType (heap s) t = Some true)) ∧
  (isInputObjectType (heap s) v = true →
   ∃ nn s1 l s2,
     GraphQLNonNull v s = Return nn s1 ∧ GraphQLList nn s1 = Return l s2 ∧
     isInputType (heap s2) l = Some true ∧
     isOutputType (heap s2) l = Some false).
Proof.
  intros Hs%reachable_wf. pose proof (wf_types s Hs) as Hh.
  split; [|split].
  - destruct (isInputType_total _ Hh v) as [b Hb]. exists b. split; [done|].
    rewrite (isInputType_unfold _ Hh) in Hb.
    unfold isScalarType, isEnumType, isInputObjectType.
    destruct (deref (heap s) v) as [[[] name|t|t|]|]; simpl in *;
      try injection Hb as <-; split; try tauto; try done;
      try (intros [|[|[|(t' & [|] & _)]]]; done).
    + intros ->. right. right. right. exists t. by split; [left|].
    + intros [|[|[|(t' & [[= <-]|] & Ht)]]]; try done. congruence.
    + intros ->. right. right. right. exists t. by split; [right|].
    + intros [|[|[|(t' & [|[= <-]] & Ht)]]]; try done. congruence.
  - destruct (isOutputType_total _ Hh v) as [b Hb]. exists b. split; [done|].
    rewrite (isOutputType_unfold _ Hh) in Hb.
    unfold isScalarType, isObjectType, isInterfaceType, isUnionType, isEnumType.
    destruct (deref (heap s) v) as [[[] name|t|t|]|]; simpl in *;
      try injection Hb as <-; split; try tauto; try done;
      try (intros [|[|[|[|[|(t' & [|] & _)]]]]]; done).
    + intros ->. do 5 right. exists t. by split; [left|].
    + intros [|[|[|[|[|(t' & [[= <-]|] & Ht)]]]]]; try done. congruence.
    + intros ->. do 5 right. exists t. by split; [right|].
    + intros [|[|[|[|[|(t' & [|[= <-]] & Ht)]]]]]; try done. congruence.
  - intros HIO.
    assert (∃ name, deref (heap s) v = Some (ONamed InputObject name))
      as [name Hd].
    { unfold isInputObjectType in HIO.
      destruct (deref (heap s) v) as [[[] name| | |]|]; try done. by exists name. }
    assert (accepts KeyNonNull (heap s) v = true) as Ha.
    { simpl. unfold isNullableType, isType, isInputObjectType, isNonNullType,
        isScalarType, isObjectType, isInterfaceType, isUnionType, isEnumType,
        isListType.
      by rewrite Hd. }
    destruct (factory_spec KeyNonNull s v Hs Ha)
      as (k & nn & s1 & -> & Hf1 & Hwf1 & Hext1 & _ & Hnn & _).
    assert (accepts KeyList (heap s1) (VRef nn) = true) as Ha1
      by (by eapply isType_wrapper).
    destruct (factory_spec KeyList s1 (VRef nn) Hwf1 Ha1)
      as (? & l & s2 & [= <-] & Hf2 & Hwf2 & Hext2 & _ & Hl & _).
    exists (VRef nn), s1, (VRef l), s2. split; [exact Hf1|]. split; [exact Hf2|].
    pose proof (wf_types s2 Hwf2) as Hh2.
    assert (heap s2 !! nn = Some (ONonNull (VRef k))) as Hnn2.
    { apply (deref_prefix (heap s1) _ (VRef nn)); [apply Hext2|done]. }
    assert (deref (heap s2) (VRef k) = Some (ONamed InputObject name)) as Hk2.
    { apply (deref_prefix (heap s)); [|done].
      etrans; [apply Hext1|apply Hext2]. }
    split.
    + rewrite (isInputType_unfold _ Hh2). simpl deref. rewrite Hl. simpl.
      rewrite (isInputType_unfold _ Hh2). simpl deref. rewrite Hnn2. simpl.
      rewrite (isInputType_unfold _ Hh2). by rewrite Hk2.
    + rewrite (isOutputType_unfold _ Hh2). simpl deref. rewrite Hl. simpl.
      rewrite (isOutputType_unfold _ Hh2). simpl deref. rewrite Hnn2. simpl.
      rewrite (isOutputType_unfold _ Hh2). by rewrite Hk2.
Qed.

Lemma C7_input_output_classification_witness :
  ∃ nn s1 l s2,
    GraphQLNonNull (VRef 0) oneInputObject = Return nn s1 ∧
    GraphQLList nn s1 = Return l s2 ∧
    isInputType (heap s2) l = Some true ∧
    isOutputType (heap s2) l = Some false.
Proof.
  assert (reachable oneInputObject) as Hr
    by reach [CNewNamedType InputObject "InputObject"].
  destruct (C7_input_output_classification oneInputObject (VRef 0) Hr)
    as (_ & _ & Hscenario).
  exact (Hscenario eq_refl).
Defined.

(** ** Rejected specs *)

Section Rejected.

Lemma reduce_rejects l : ∀ s v,
  wf s → valid (heap s) v →
  (∃ ch, ch ∈ l ∧ isMarker ch = false) →
  ∃ e s', reduce wrapStep l v s = Throw e s'.
Proof.
  induction l as [|ch rest IH]; intros s v Hwf Hv (bad & Hin & Hbad).
  { by apply elem_of_nil in Hin. }
  simpl. munfold. pose proof (sound_wrapStep v ch s Hwf) as Hstep.
  destruct (isMarker ch) eqn:Hch.
  - assert (bad ∈ rest) as Hin'.
    { apply elem_of_cons in Hin as [->|?]; [congruence|done]. }
    destruct (wrapStep v ch s) as [v1 s1|e s1|]; [|by eexists _, _|done].
    destruct Hstep as (Hwf1 & _ & Hv1).
    apply (IH s1 v1 Hwf1 (Hv1 Hv)). by exists bad.
  - rewrite wrapStep_marker. unfold isMarker in Hch.
    apply orb_false_iff in Hch as [-> ->]. by eexists _, _.
Qed.

End Rejected.

(** C8. [wrapType] rejects the empty spec with the [Error]
    ["Zero-length wrapSpec given."], whatever the base, and does not
    touch the store.  On every reachable store and for every value a
    client can hold, a spec that contains a character other than [']']
    and ['!'] makes [wrapType] throw: no wrapper is returned; when the
    first character is such a character, the [Error] names it and the
    store is untouched. *)
Theorem C8_wrapType_rejects s v wrapSpec :
  reachable s → valid (heap s) v →
  wrapType v "" s = Throw (Error "Zero-length wrapSpec given.") s ∧
  ((∃ ch, ch ∈ list_ascii_of_string wrapSpec ∧ isMarker ch = false) →
   ∃ e s', wrapType v wrapSpec s = Throw e s') ∧
  (∀ ch rest, isMarker ch = false →
     wrapType v (String ch rest) s =
     Throw (Error ("Invalid wrapSpec character: " +:+ String ch "")) s).
Proof.
  intros Hs%reachable_wf Hv. split; [done|]. split.
  - intros Hbad. destruct wrapSpec as [|c rest].
    { destruct Hbad as (ch & Hin & _). by apply elem_of_nil in Hin. }
    rewrite wrapType_nonempty. by apply reduce_rejects.
  - intros ch rest Hch. rewrite wrapType_nonempty. simpl. munfold.
    rewrite wrapStep_marker. unfold isMarker in Hch.
    by apply orb_false_iff in Hch as [-> ->].
Qed.

Lemma C8_wrapType_rejects_witness :
  wrapType (VRef 0) "" twoObjects
  = Throw (Error "Zero-length wrapSpec given.") twoObjects ∧
  (∃ e s', wrapType (VRef 0) "]a" twoObjects = Throw e s') ∧
  wrapType (VRef 0) "a]" twoObjects
  = Throw (Error "Invalid wrapSpec character: a") twoObjects.
Proof.
  assert (reachable twoObjects) as Hr
    by reach [CNewNamedType Object "A"; CNewNamedType Object "A"].
  assert (valid (heap twoObjects) (VRef 0)) as Hv by (vm_compute; lia).
  destruct (C8_wrapType_rejects twoObjects (VRef 0) "]a" Hr Hv)
    as (Hempty & Hbad & Hfirst).
  split; [exact Hempty|]. split.
  - apply Hbad. exists "a"%char. split; [|reflexivity].
    apply list_elem_of_In. simpl. tauto.
  - exact (Hfirst "a"%char "]" eq_refl).
Defined.

(** C9. [getNullableType] gives [undefined] for [undefined] and for
    [null]; for a non-null type, its immediate inner type; for any other
    value that is there, the value itself.  One layer only: on every
    reachable store and for a nullable type [X],
    [getNullableType(NonNull(List(NonNull(X))))] is the instance
    [List(NonNull(X))], which is not [X]. *)
Theorem C9_getNullableType s X :
  reachable s → isNullableType (heap s) X = true →
  (∀ h, getNullableType h VUndefined = VUndefined ∧
        getNullableType h VNull = VUndefined) ∧
  (∀ h v t, deref h v = Some (ONonNull t) → getNullableType h v = t) ∧
  (∀ h v, truthy v = true → isNonNullType h v = false →
          getNullableType h v = v) ∧
  ∃ nn s1 l s2 outer s3,
    GraphQLNonNull X s = Return nn s1 ∧ GraphQLList nn s1 = Return l s2 ∧
    GraphQLNonNull l s2 = Return outer s3 ∧
    getNullableType (heap s3) outer = l ∧ l ≠ X ∧
    getNullableType (heap s3) l = l ∧
    getNullableType (heap s3) nn = X.
Proof.
  intros Hs%reachable_wf HX. split; [done|]. split; [|split].
  - intros h v t Hd. unfold getNullableType. rewrite Hd.
    by destruct v.
  - intros h v Hv Hnn. unfold getNullableType, isNonNullType in *.
    rewrite Hv. by destruct (deref h v) as [[]|].
  - destruct (factory_spec KeyNonNull s X Hs HX)
      as (k & nn & s1 & -> & Hf1 & Hwf1 & Hext1 & _ & Hnn & _).
    assert (accepts KeyList (heap s1) (VRef nn) = true) as Ha1
      by (by eapply isType_wrapper).
    destruct (factory_spec KeyList s1 (VRef nn) Hwf1 Ha1)
      as (? & l & s2 & [= <-] & Hf2 & Hwf2 & Hext2 & _ & Hl & _).
    assert (accepts KeyNonNull (heap s2) (VRef l) = true) as Ha2.
    { apply isNullableType_spec. split; [by eapply isType_wrapper|].
      by rewrite (isNonNullType_wrapper _ _ _ _ Hl). }
    destruct (factory_spec KeyNonNull s2 (VRef l) Hwf2 Ha2)
      as (? & outer & s3 & [= <-] & Hf3 & Hwf3 & Hext3 & _ & Houter & _).
    exists (VRef nn), s1, (VRef l), s2, (VRef outer), s3.
    split; [exact Hf1|]. split; [exact Hf2|]. split; [exact Hf3|].
    assert (heap s3 !! l = Some (OList (VRef nn))) as Hl3.
    { apply (deref_prefix (heap s2) _ (VRef l)); [apply Hext3|done]. }
    assert (heap s3 !! nn = Some (ONonNull (VRef k))) as Hnn3.
    { apply (deref_prefix (heap s1) _ (VRef nn)); [|done].
      etrans; [apply Hext2|apply Hext3]. }
    unfold getNullableType. simpl. rewrite Houter, Hl3, Hnn3. simpl.
    split; [done|]. split; [|done].
    intros [= ->].
    destruct (wf_types s3 Hwf3 k _ (VRef nn) Hl3 eq_refl) as ((? & [= <-] & Hlt) & _).
    destruct (wf_types s3 Hwf3 nn _ (VRef k) Hnn3 eq_refl) as ((? & [= <-] & Hlt') & _).
    lia.
Qed.

Lemma C9_getNullableType_witness :
  ∃ nn s1 l s2 outer s3,
    GraphQLNonNull (VRef 0) twoObjects = Return nn s1 ∧
    GraphQLList nn s1 = Return l s2 ∧
    GraphQLNonNull l s2 = Return outer s3 ∧
    getNullableType (heap s3) outer = l ∧ l ≠ VRef 0 ∧
    getNullableType (heap s3) l = l ∧
    getNullableType (heap s3) nn = VRef 0.
Proof.
  apply (C9_getNullableType twoObjects (VRef 0)).
  - reach [CNewNamedType Object "A"; CNewNamedType Object "A"].
  - reflexivity.
Defined.

(** C10. [new] bypasses the cache: on every reachable store and for
    every type [X], [new GraphQLList(X)] returns an object that did not
    exist before, whose [ofType] is [X]; the cache is as it was and holds
    that object in no slot; a factory call [GraphQLList(X)] made
    afterwards returns another instance, and if the factory had an
    instance cached before the [new], it still returns that one.  The
    same holds of [new GraphQLNonNull(X)] for a nullable [X].  An
    argument that fails the check makes [new] throw. *)
Theorem C10_new_bypasses_cache s X :
  reachable s → isType (heap s) X = true →
  (∃ n s1, new_GraphQLList X s = Return n s1 ∧
     deref (heap s) n = None ∧
     deref (heap s1) n = Some (OList X) ∧
     cacheMaps s1 = cacheMaps s ∧ wrapperCache s1 = wrapperCache s ∧
     (∀ k c, cached s1 k c ≠ n) ∧
     (∀ w s2, GraphQLList X s1 = Return w s2 → w ≠ n) ∧
     (∀ w, GraphQLList X s = Return w s →
        w ≠ n ∧ GraphQLList X s1 = Return w s1)) ∧
  (isNullableType (heap s) X = true →
   ∃ n s1, new_GraphQLNonNull X s = Return n s1 ∧
     deref (heap s) n = None ∧
     deref (heap s1) n = Some (ONonNull X) ∧
     cacheMaps s1 = cacheMaps s ∧ wrapperCache s1 = wrapperCache s ∧
     (∀ k c, cached s1 k c ≠ n) ∧
     (∀ w s2, GraphQLNonNull X s1 = Return w s2 → w ≠ n) ∧
     (∀ w, GraphQLNonNull X s = Return w s →
        w ≠ n ∧ GraphQLNonNull X s1 = Return w s1)) ∧
  (∀ v, valid (heap s) v → isType (heap s) v = false →
     ∃ msg, new_GraphQLList v s = Throw (Error msg) s) ∧
  (∀ v, valid (heap s) v → isNullableType (heap s) v = false →
     ∃ msg, new_GraphQLNonNull v s = Throw (Error msg) s).
Proof.
  intros Hs%reachable_wf HX. split; [|split; [|split]].
  - apply (new_bypasses_cache KeyList s X Hs HX).
  - intros HN. apply (new_bypasses_cache KeyNonNull s X Hs HN).
  - intros v Hv Hrej.
    change (new_GraphQLList v s) with (construct KeyList v s).
    rewrite (construct_rejects KeyList s v Hrej). by apply assertion_throws.
  - intros v Hv Hrej.
    change (new_GraphQLNonNull v s) with (construct KeyNonNull v s).
    rewrite (construct_rejects KeyNonNull s v Hrej). by apply assertion_throws.
Qed.

Lemma C10_new_bypasses_cache_witness :
  ∃ n s1, new_GraphQLNonNull (VRef 0) objectAndNonNull = Return n s1 ∧
    deref (heap objectAndNonNull) n = None ∧
    deref (heap s1) n = Some (ONonNull (VRef 0)) ∧
    cacheMaps s1 = cacheMaps objectAndNonNull ∧
    wrapperCache s1 = wrapperCache objectAndNonNull ∧
    (∀ k c, cached s1 k c ≠ n) ∧
    (∀ w s2, GraphQLNonNull (VRef 0) s1 = Return w s2 → w ≠ n) ∧
    (∀ w, GraphQLNonNull (VRef 0) objectAndNonNull = Return w objectAndNonNull →
       w ≠ n ∧ GraphQLNonNull (VRef 0) s1 = Return w s1).
Proof.
  assert (reachable objectAndNonNull) as Hr
    by reach [CNewNamedType Object "Object"; CGraphQLNonNull (VRef 0)].
  destruct (C10_new_bypasses_cache objectAndNonNull (VRef 0) Hr eq_refl)
    as (_ & HN & _).
  exact (HN eq_refl).
Defined.

(** The runs behind the tests of the source: after
    [wrapType(ObjectType, '!]')], twice, and [new GraphQLList(ObjectType)],
    the two [wrapType] results are one object, rendered ["[Object!]"],
    the [new] object is another one, and [getNamedType] of the wrapped
    type is [ObjectType]. *)
Example wrapType_run :
  (o ← newNamedType Object "Object";
   w ← wrapType o "!]";
   w' ← wrapType o "!]";
   n ← new_GraphQLList o;
   mret (o, w, w', n)) init
  = Return (VRef 0, VRef 2, VRef 2, VRef 3)
      (mkState [ONamed Object "Object"; ONonNull (VRef 0); OList (VRef 1);
                OList (VRef 0)]
               [mkTypeCacheMap VUndefined (VRef 1);
                mkTypeCacheMap (VRef 2) VUndefined]
               (<[1 := 1]> (<[0 := 0]> ∅)))
  ∧ JsString [ONamed Object "Object"; ONonNull (VRef 0); OList (VRef 1)]
             (VRef 2) = Some "[Object!]"
  ∧ getNamedType [ONamed Object "Object"; ONonNull (VRef 0); OList (VRef 1)]
                 (VRef 2) = Some (VRef 0).
Proof. split; [|split]; vm_compute; reflexivity. Qed.

Example wrapType_double_nonNull :
  (o ← newNamedType Object "Object"; wrapType o "!!") init
  = Throw (Error "Expected Object! to be a GraphQL nullable type.")
      (mkState [ONamed Object "Object"; ONonNull (VRef 0)]
               [mkTypeCacheMap VUndefined (VRef 1)] (<[0 := 0]> ∅)).
Proof. vm_compute. reflexivity. Qed.

(** * Further properties of [wrappers.js] *)

(** ** The store along a run *)

(** X1. The cache of [lookupOrMake] is sound on every reachable store: a
    slot is either empty or holds a reference to a wrapper of the slot's
    kind whose [ofType] is the slot's key, the key is a type, and no
    other slot holds that wrapper. *)
Theorem X1_cache_slots_sound s :
  reachable s →
  ∀ k c,
    cached s k c = VUndefined ∨
    ∃ w, cached s k c = VRef w ∧
         heap s !! w = Some (wrapperObj c (VRef k)) ∧
         isType (heap s) (VRef k) = true ∧
         ∀ k' c', cached s k' c' = VRef w → k' = k ∧ c' = c.
Proof.
  intros Hs%reachable_wf k c.
  destruct (wf_slots s Hs k c) as [Hu|(w & Hc & Hw)]; [by left|].
  right. exists w. split; [done|]. split; [done|]. split.
  - assert (ofTypeOf (wrapperObj c (VRef k)) = Some (VRef k)) as Ht
      by (by destruct c).
    by destruct (wf_types s Hs w _ _ Hw Ht) as (_ & Hty & _).
  - intros k' c' Hc'.
    destruct (wf_slots s Hs k' c') as [Hu|(w' & Hc2 & Hw')]; [congruence|].
    rewrite Hc' in Hc2. injection Hc2 as <-. rewrite Hw in Hw'.
    injection Hw' as Heq. by apply wrapperObj_inj in Heq as [-> [= ->]].
Qed.

Lemma X1_cache_slots_sound_witness :
  cached objectAndNonNull 0 KeyNonNull = VRef 1 ∧
  cached objectAndNonNull 0 KeyList = VUndefined ∧
  ∀ k c,
    cached objectAndNonNull k c = VUndefined ∨
    ∃ w, cached objectAndNonNull k c = VRef w ∧
         heap objectAndNonNull !! w = Some (wrapperObj c (VRef k)) ∧
         isType (heap objectAndNonNull) (VRef k) = true ∧
         ∀ k' c', cached objectAndNonNull k' c' = VRef w → k' = k ∧ c' = c.
Proof.
  split; [reflexivity|]. split; [reflexivity|].
  apply (X1_cache_slots_sound objectAndNonNull).
  reach [CNewNamedType Object "Object"; CGraphQLNonNull (VRef 0)].
Defined.

(** X2. No run builds an ill-formed wrapper: on every reachable store
    the [ofType] of a [GraphQLList] or [GraphQLNonNull] object is a
    reference to a type object allocated before the wrapper (so [ofType]
    chains end), and the [ofType] of a [GraphQLNonNull] is never a
    [GraphQLNonNull], whether the wrapper came from a factory call, from
    [new] or from [wrapType]. *)
Theorem X2_wrappers_well_founded s l o t :
  reachable s → heap s !! l = Some o → ofTypeOf o = Some t →
  (∃ l', t = VRef l' ∧ l' < l) ∧
  isType (heap s) t = true ∧
  (o = ONonNull t → isNonNullType (heap s) t = false).
Proof. intros Hs%reachable_wf. apply (wf_types s Hs). Qed.

Lemma X2_wrappers_well_founded_witness :
  (∃ l', VRef 0 = VRef l' ∧ l' < 1) ∧
  isType (heap objectAndNonNull) (VRef 0) = true ∧
  (ONonNull (VRef 0) = ONonNull (VRef 0) →
   isNonNullType (heap objectAndNonNull) (VRef 0) = false).
Proof.
  apply (X2_wrappers_well_founded objectAndNonNull 1 (ONonNull (VRef 0))).
  - reach [CNewNamedType Object "Object"; CGraphQLNonNull (VRef 0)].
  - reflexivity.
  - reflexivity.
Defined.

(** X3. The store only grows: whatever calls are made from a reachable
    store, whether they return or throw, every object stays at its
    address with its fields, every filled cache slot keeps its wrapper,
    and the rendering of every value a client held stays the same. *)
Theorem X3_store_only_grows s cs s' :
  reachable s → afterAll cs s = Some s' →
  (∀ l o, heap s !! l = Some o → heap s' !! l = Some o) ∧
  (∀ k c w, cached s k c = VRef w → cached s' k c = VRef w) ∧
  (∀ v, valid (heap s) v → JsString (heap s') v = JsString (heap s) v).
Proof.
  intros Hs%reachable_wf Hcs.
  destruct (afterAll_wf cs s s' Hs Hcs) as [_ [Hh Hc]].
  split; [|split].
  - intros l o Hl. by apply (deref_prefix (heap s) _ (VRef l)).
  - exact Hc.
  - intros v Hv. by apply JsString_later; [apply (wf_types s Hs)|..].
Qed.

Lemma X3_store_only_grows_witness :
  ∃ s', afterAll [CWrapType (VRef 0) "]a"; CNewGraphQLNonNull (VRef 1)]
          objectAndNonNull = Some s' ∧
    (∀ l o, heap objectAndNonNull !! l = Some o → heap s' !! l = Some o) ∧
    (∀ k c w, cached objectAndNonNull k c = VRef w → cached s' k c = VRef w) ∧
    (∀ v, valid (heap objectAndNonNull) v →
          JsString (heap s') v = JsString (heap objectAndNonNull) v).
Proof.
  eexists. split; [vm_compute; reflexivity|].
  apply (X3_store_only_grows objectAndNonNull
           [CWrapType (VRef 0) "]a"; CNewGraphQLNonNull (VRef 1)]).
  - reach [CNewNamedType Object "Object"; CGraphQLNonNull (VRef 0)].
  - vm_compute; reflexivity.
Defined.

(** X4. The rendering of wrappers ends: on every reachable store
    [String(v)] gives a result for every value a client can hold, the
    nested [toString] calls of [GraphQLList] and [GraphQLNonNull] being
    bounded by the address of the wrapper they start from. *)
Theorem X4_toString_returns s v :
  reachable s → valid (heap s) v →
  ∃ r, JsString (heap s) v = Some r ∧
       ∀ fuel, below fuel v → String_fuel fuel (heap s) v = Some r.
Proof.
  intros Hs%reachable_wf Hv.
  destruct (JsString_total _ (wf_types s Hs) v Hv) as [r Hr].
  exists r. split; [done|]. intros fuel Hf. rewrite <- Hr.
  by apply (String_fuel_stable (heap s) (heap s) (wf_types s Hs)).
Qed.

Lemma X4_toString_returns_witness :
  ∃ r, JsString (heap objectAndNonNull) (VRef 1) = Some r ∧
       ∀ fuel, below fuel (VRef 1) →
               String_fuel fuel (heap objectAndNonNull) (VRef 1) = Some r.
Proof.
  apply (X4_toString_returns objectAndNonNull (VRef 1)).
  - reach [CNewNamedType Object "Object"; CGraphQLNonNull (VRef 0)].
  - vm_compute. lia.
Defined.

(** ** The factories *)

Section Factories.

Lemma lookup_iff_eq (m1 m2 : gmap nat nat) :
  (∀ k m, m1 !! k = Some m ↔ m2 !! k = Some m) → m1 = m2.
Proof. intros H. apply map_eq. intros k. apply option_eq. apply H. Qed.

(** What a factory call that returns does to the [WeakMap] and to the
    [TypeCacheMap] objects. *)
Lemma factory_maps c s k w s1 :
  wf s → factory c (VRef k) s = Return w s1 →
  (length (heap s1) = length (heap s) ∨
   length (heap s1) = S (length (heap s))) ∧
  match wrapperCache s !! k with
  | Some m =>
      wrapperCache s1 = wrapperCache s ∧
      length (cacheMaps s1) = length (cacheMaps s)
  | None =>
      wrapperCache s1 = <[k := length (cacheMaps s)]> (wrapperCache s) ∧
      length (cacheMaps s1) = S (length (cacheMaps s))
  end.
Proof.
  intros Hwf Hrun.
  destruct (factory_result c s _ w s1 Hwf Hrun)
    as (k' & wl & [= <-] & -> & Ha & _).
  rewrite (factory_accepts c s _ Ha) in Hrun.
  destruct (wf_slots s Hwf k c) as [Hu|(w' & Hw & _)].
  2: { rewrite (lookupOrMake_hit s k c _ w' Hw) in Hrun.
       injection Hrun as _ <-. split; [by left|].
       unfold cached in Hw. by destruct (wrapperCache s !! k). }
  destruct (wrapperCache s !! k) as [m|] eqn:Hm.
  - destruct (lookupOrMake_fill s k c (construct c) m Hwf Hm Hu
                (construct_accepts c s _ Ha))
      as (s' & Hrun' & Hh & Hcache & Hlen & _).
    rewrite Hrun' in Hrun. injection Hrun as _ <-.
    split; [right; rewrite Hh, length_app; simpl; lia|].
    split; [by apply lookup_iff_eq|done].
  - rewrite (lookupOrMake_fresh_map s k c _ Hm) in Hrun.
    pose proof (wf_withFreshMap s k Hwf Hm) as Hwf0.
    assert (wrapperCache (withFreshMap s k) !! k = Some (length (cacheMaps s)))
      as Hm0 by (simpl; by rewrite lookup_insert_eq).
    assert (cached (withFreshMap s k) k c = VUndefined) as Hu0
      by (by rewrite cached_withFreshMap).
    destruct (lookupOrMake_fill _ k c (construct c) _ Hwf0 Hm0 Hu0
                (construct_accepts c (withFreshMap s k) _ Ha))
      as (s' & Hrun' & Hh & Hcache & Hlen & _).
    rewrite Hrun' in Hrun. injection Hrun as _ <-.
    split; [right; rewrite Hh, length_app; simpl; lia|].
    split; [by apply lookup_iff_eq|].
    rewrite Hlen. simpl. rewrite length_app. simpl. lia.
Qed.

End Factories.

(** X5. A factory call on a value that is no type ([undefined], [null],
    an object of another class) throws before [lookupOrMake] is reached:
    on every reachable store [GraphQLList(v)] and [GraphQLNonNull(v)]
    throw an [Error] and leave the heap, the [WeakMap] and every
    [TypeCacheMap] as they were; so does [wrapType(v, spec)] when [spec]
    starts with a marker. *)
Theorem X5_factory_rejects_non_type s v :
  reachable s → valid (heap s) v → isType (heap s) v = false →
  (∃ msg, GraphQLList v s = Throw (Error msg) s) ∧
  (∃ msg, GraphQLNonNull v s = Throw (Error msg) s) ∧
  (∀ rest, ∃ msg, wrapType v (String "]" rest) s = Throw (Error msg) s) ∧
  (∀ rest, ∃ msg, wrapType v (String "!" rest) s = Throw (Error msg) s).
Proof.
  intros Hs%reachable_wf Hv Hty.
  assert (∀ c, ∃ msg, factory c v s = Throw (Error msg) s) as Hf.
  { intros c. rewrite factory_rejects; [by apply assertion_throws|].
    destruct c; simpl; [done|]. unfold isNullableType. by rewrite Hty. }
  split; [apply (Hf KeyList)|]. split; [apply (Hf KeyNonNull)|]. split.
  - intros rest. destruct (Hf KeyList) as [msg Hmsg]. exists msg.
    rewrite wrapType_nonempty. simpl. munfold.
    change (wrapStep v "]" s) with (factory KeyList v s). by rewrite Hmsg.
  - intros rest. destruct (Hf KeyNonNull) as [msg Hmsg]. exists msg.
    rewrite wrapType_nonempty. simpl. munfold.
    change (wrapStep v "!" s) with (factory KeyNonNull v s). by rewrite Hmsg.
Qed.

Lemma X5_factory_rejects_non_type_witness :
  (∃ msg, GraphQLList VUndefined init = Throw (Error msg) init) ∧
  (∃ msg, GraphQLNonNull VUndefined init = Throw (Error msg) init) ∧
  (∀ rest, ∃ msg,
     wrapType VUndefined (String "]" rest) init = Throw (Error msg) init) ∧
  (∀ rest, ∃ msg,
     wrapType VUndefined (String "!" rest) init = Throw (Error msg) init).
Proof.
  apply (X5_factory_rejects_non_type init VUndefined).
  - apply reachable_init.
  - exact I.
  - reflexivity.
Defined.

(** X6. What a factory call costs: a call [GraphQLList(X)] or
    [GraphQLNonNull(X)] that returns allocates at most one type object;
    if [X] already has its [TypeCacheMap], the [WeakMap] is unchanged and
    no [TypeCacheMap] is created, else [X] gets exactly one new
    [TypeCacheMap].  So the list and the non-null wrapper of one inner
    type sit in the two slots of one [TypeCacheMap]. *)
Theorem X6_one_cache_map_per_inner_type s c X w s1 :
  reachable s → factory c X s = Return w s1 →
  ∃ k, X = VRef k ∧
    (length (heap s1) = length (heap s) ∨
     length (heap s1) = S (length (heap s))) ∧
    match wrapperCache s !! k with
    | Some m =>
        wrapperCache s1 = wrapperCache s ∧
        length (cacheMaps s1) = length (cacheMaps s)
    | None =>
        wrapperCache s1 = <[k := length (cacheMaps s)]> (wrapperCache s) ∧
        length (cacheMaps s1) = S (length (cacheMaps s))
    end ∧
    ∀ c' w' s2, factory c' X s1 = Return w' s2 →
      wrapperCache s2 = wrapperCache s1 ∧
      length (cacheMaps s2) = length (cacheMaps s1) ∧
      cached s2 k c = w ∧ cached s2 k c' = w'.
Proof.
  intros Hs%reachable_wf Hrun.
  destruct (factory_result c s X w s1 Hs Hrun)
    as (k & wl & -> & -> & _ & Hwf1 & _ & Hc1 & _).
  exists k. split; [done|].
  destruct (factory_maps c s k _ s1 Hs Hrun) as [Hheap Hmaps].
  split; [done|]. split; [done|].
  intros c' w' s2 Hrun2.
  destruct (factory_result c' s1 _ w' s2 Hwf1 Hrun2)
    as (? & wl' & [= <-] & -> & _ & _ & Hext2 & Hc2 & _).
  destruct (factory_maps c' s1 k _ s2 Hwf1 Hrun2) as [_ Hmaps2].
  assert (is_Some (wrapperCache s1 !! k)) as [m Hm].
  { unfold cached in Hc1. by destruct (wrapperCache s1 !! k); [eexists|]. }
  rewrite Hm in Hmaps2. destruct Hmaps2 as [-> ->].
  split; [done|]. split; [done|].
  split; [by apply (ext_cached _ _ Hext2)|done].
Qed.

Lemma X6_one_cache_map_per_inner_type_witness :
  ∃ w s1, factory KeyList (VRef 0) objectAndNonNull = Return w s1 ∧
    wrapperCache s1 = wrapperCache objectAndNonNull ∧
    length (cacheMaps s1) = length (cacheMaps objectAndNonNull) ∧
    cached s1 0 KeyList = w ∧ cached s1 0 KeyNonNull = VRef 1.
Proof.
  assert (reachable objectAndNonNull) as Hr
    by reach [CNewNamedType Object "Object"; CGraphQLNonNull (VRef 0)].
  eexists _, _. split; [vm_compute; reflexivity|].
  destruct (X6_one_cache_map_per_inner_type objectAndNonNull KeyNonNull
              (VRef 0) (VRef 1) objectAndNonNull Hr)
    as (k & [= <-] & _ & _ & Hnext); [vm_compute; reflexivity|].
  destruct (Hnext KeyList _ _ eq_refl) as (Hc & Hl & Hnn & Hlist).
  split; [exact Hc|]. split; [exact Hl|]. split; [exact Hlist|exact Hnn].
Defined.

(** X7. Which wrappers can be wrapped again: on every reachable store,
    whatever a factory call returns is accepted by [GraphQLList]; a
    [GraphQLList] result is accepted by [GraphQLNonNull] too, and a
    [GraphQLNonNull] result makes [GraphQLNonNull] throw, the store
    unchanged. *)
Theorem X7_wrapping_a_wrapper s c X w s1 :
  reachable s → factory c X s = Return w s1 →
  (∃ l s2, GraphQLList w s1 = Return l s2 ∧
           deref (heap s2) l = Some (OList w)) ∧
  match c with
  | KeyList =>
      ∃ nn s2, GraphQLNonNull w s1 = Return nn s2 ∧
               deref (heap s2) nn = Some (ONonNull w)
  | KeyNonNull => ∃ msg, GraphQLNonNull w s1 = Throw (Error msg) s1
  end.
Proof.
  intros Hs%reachable_wf Hrun.
  destruct (factory_result c s X w s1 Hs Hrun)
    as (k & wl & -> & -> & _ & Hwf1 & _ & _ & Hw).
  pose proof (isType_wrapper _ _ _ _ Hw) as Hty.
  pose proof (isNonNullType_wrapper _ _ _ _ Hw) as Hnn.
  split.
  - destruct (factory_spec KeyList s1 _ Hwf1 Hty)
      as (? & l & s2 & [= <-] & Hl & _ & _ & _ & Hhl & _).
    by exists (VRef l), s2.
  - destruct c.
    + assert (accepts KeyNonNull (heap s1) (VRef wl) = true) as Ha
        by (by apply isNullableType_spec).
      destruct (factory_spec KeyNonNull s1 _ Hwf1 Ha)
        as (? & nn & s2 & [= <-] & Hf & _ & _ & _ & Hhnn & _).
      by exists (VRef nn), s2.
    + change (GraphQLNonNull (VRef wl) s1)
        with (factory KeyNonNull (VRef wl) s1).
      rewrite factory_rejects.
      * apply assertion_throws; [done|]. by apply isType_valid.
      * simpl. unfold isNullableType. rewrite Hnn. apply andb_false_r.
Qed.

Lemma X7_wrapping_a_wrapper_witness :
  (∃ l s2, GraphQLList (VRef 1) objectAndNonNull = Return l s2 ∧
           deref (heap s2) l = Some (OList (VRef 1))) ∧
  ∃ msg, GraphQLNonNull (VRef 1) objectAndNonNull
         = Throw (Error msg) objectAndNonNull.
Proof.
  apply (X7_wrapping_a_wrapper objectAndNonNull KeyNonNull (VRef 0) (VRef 1)).
  - reach [CNewNamedType Object "Object"; CGraphQLNonNull (VRef 0)].
  - vm_compute; reflexivity.
Defined.

(** ** [wrapType] along a spec *)

Section Specs.

Lemma reduce_app {A B} (f : B → A → M B) l1 l2 : ∀ acc s,
  reduce f (l1 ++ l2) acc s = (acc' ← reduce f l1 acc; reduce f l2 acc') s.
Proof.
  induction l1 as [|x l1 IH]; intros acc s; simpl; munfold; [done|].
  destruct (f acc x s) as [a s1|e s1|]; [|done..]. apply IH.
Qed.

Lemma list_ascii_of_string_app (a b : string) :
  list_ascii_of_string (a +:+ b) = list_ascii_of_string a ++ list_ascii_of_string b.
Proof.
  induction a as [|x a IH]; [done|]. rewrite append_cons. simpl. by rewrite IH.
Qed.

Lemma wrapType_reduce v S s :
  S ≠ "" → wrapType v S s = reduce wrapStep (list_ascii_of_string S) v s.
Proof. destruct S; [done|]. intros _. by rewrite wrapType_nonempty. Qed.

Lemma append_nonempty (a b : string) : a ≠ "" → a +:+ b ≠ "".
Proof. destruct a; [done|]. by rewrite append_cons. Qed.

Lemma list_ascii_of_string_inj (a b : string) :
  list_ascii_of_string a = list_ascii_of_string b → a = b.
Proof.
  intros H. rewrite <- (string_of_list_ascii_of_string a),
    <- (string_of_list_ascii_of_string b). by rewrite H.
Qed.

(** The marker of a wrapper kind. *)
Lemma wrapStep_factory c v :
  wrapStep v (match c with KeyList => "]" | KeyNonNull => "!" end%char)
  = factory c v.
Proof. by destruct c. Qed.

(** What is known of a [reduce] that returned, seen from its last
    step. *)
Lemma reduce_snoc_result l ch s v w s' :
  wf s → reduce wrapStep (l ++ [ch]) v s = Return w s' →
  ∃ t s0 c wl,
    reduce wrapStep l v s = Return t s0 ∧ wf s0 ∧ extends s s0 ∧
    ch = match c with KeyList => "]" | KeyNonNull => "!" end%char ∧
    factory c t s0 = Return w s' ∧ accepts c (heap s0) t = true ∧
    w = VRef wl ∧ heap s' !! wl = Some (wrapperObj c t) ∧
    wf s' ∧ extends s0 s'.
Proof.
  intros Hwf. rewrite reduce_snoc. munfold.
  pose proof (sound_reduce l v s Hwf) as Hl.
  destruct (reduce wrapStep l v s) as [t s0|e s0|]; [|done..].
  destruct Hl as (Hwf0 & Hext0 & _). intros Hstep.
  destruct (wrapStep_result s0 t ch w s' Hwf0 Hstep) as (c & Hf & ->).
  destruct (factory_result c s0 t w s' Hwf0 Hf)
    as (k & wl & -> & -> & Ha & Hwf' & Hext' & _ & Hw).
  by exists (VRef k), s0, c, wl.
Qed.

(** A [reduce] that returned returns the same in every later store. *)
Lemma reduce_again l : ∀ s v w s1 s2,
  wf s → reduce wrapStep l v s = Return w s1 →
  wf s2 → extends s1 s2 →
  reduce wrapStep l v s2 = Return w s2.
Proof.
  induction l as [|ch rest IH]; intros s v w s1 s2 Hwf; simpl; munfold.
  - by intros [= <- <-] _ _.
  - destruct (wrapStep v ch s) as [v1 s'| |] eqn:Hstep; [|done..].
    intros Hrest Hwf2 Hext2.
    destruct (wrapStep_result s v ch v1 s' Hwf Hstep) as (c & Hf & ->).
    destruct (factory_result c s v v1 s' Hwf Hf)
      as (k & wl & -> & -> & Ha & Hwf' & Hext' & Hc & _).
    pose proof (sound_reduce rest (VRef wl) s' Hwf') as Hr.
    rewrite Hrest in Hr. destruct Hr as (_ & Hext1 & _).
    pose proof (extends_trans _ _ _ Hext1 Hext2) as Hext'2.
    rewrite wrapStep_factory.
    rewrite (factory_cached c s2 k wl).
    + by apply (IH s' (VRef wl) w s1 s2).
    + apply (accepts_later c s s2); [done| |done]. by eapply extends_trans.
    + by apply (ext_cached _ _ Hext'2).
Qed.

(** A [reduce] that returned went along legal markers. *)
Lemma reduce_returns_legal l : ∀ s v w s',
  wf s → reduce wrapStep l v s = Return w s' →
  legalMarkers (isNonNullType (heap s) v) l = true.
Proof.
  induction l as [|ch rest IH]; intros s v w s' Hwf; simpl; munfold; [done|].
  destruct (wrapStep v ch s) as [v1 s1| |] eqn:Hstep; [|done..].
  intros Hrest.
  destruct (wrapStep_result s v ch v1 s1 Hwf Hstep) as (c & Hf & ->).
  destruct (factory_result c s v v1 s1 Hwf Hf)
    as (k & wl & -> & -> & Ha & Hwf1 & _ & _ & Hw).
  pose proof (IH s1 (VRef wl) w s' Hwf1 Hrest) as Hlegal.
  rewrite (isNonNullType_wrapper _ _ _ _ Hw) in Hlegal.
  destruct c; simpl; [done|].
  apply isNullableType_spec in Ha as [_ ->]. done.
Qed.

Lemma renderMarkers_step c r :
  (if Ascii.eqb (match c with KeyList => "]" | KeyNonNull => "!" end) "]"
   then "[" +:+ r +:+ "]" else r +:+ "!")
  = match c with KeyList => "[" +:+ r +:+ "]" | KeyNonNull => r +:+ "!" end.
Proof. by destruct c. Qed.

(** The rendering of what [reduce] returns. *)
Lemma reduce_render l : ∀ s v r w s',
  wf s → JsString (heap s) v = Some r →
  reduce wrapStep l v s = Return w s' →
  JsString (heap s') w = Some (renderMarkers l r).
Proof.
  induction l as [|ch rest IH]; intros s v r w s' Hwf Hr; simpl; munfold.
  - by intros [= <- <-].
  - destruct (wrapStep v ch s) as [v1 s1| |] eqn:Hstep; [|done..].
    intros Hrest.
    destruct (wrapStep_result s v ch v1 s1 Hwf Hstep) as (c & Hf & ->).
    destruct (factory_result c s v v1 s1 Hwf Hf)
      as (k & wl & -> & -> & Ha & Hwf1 & Hext1 & _ & Hw).
    unfold renderMarkers. simpl fold_left. rewrite renderMarkers_step.
    apply (IH s1 (VRef wl)); [done| |done].
    apply (render_wrapper _ c wl (VRef k) r); [apply (wf_types s1 Hwf1)|done|].
    rewrite (JsString_later (heap s) (heap s1) (wf_types s Hwf));
      [done|apply Hext1|].
    apply isType_valid. by eapply accepts_isType.
Qed.

Lemma isInputType_wrapper h w c v :
  wf_heap h → h !! w = Some (wrapperObj c v) →
  isInputType h (VRef w) = isInputType h v.
Proof.
  intros Hwf Hw. rewrite (isInputType_unfold h Hwf (VRef w)).
  simpl. rewrite Hw. by destruct c.
Qed.

Lemma isOutputType_wrapper h w c v :
  wf_heap h → h !! w = Some (wrapperObj c v) →
  isOutputType h (VRef w) = isOutputType h v.
Proof.
  intros Hwf Hw. rewrite (isOutputType_unfold h Hwf (VRef w)).
  simpl. rewrite Hw. by destruct c.
Qed.

(** Wrapping changes neither the input nor the output category. *)
Lemma reduce_category l : ∀ s v w s',
  wf s → valid (heap s) v → reduce wrapStep l v s = Return w s' →
  isInputType (heap s') w = isInputType (heap s) v ∧
  isOutputType (heap s') w = isOutputType (heap s) v.
Proof.
  induction l as [|ch rest IH]; intros s v w s' Hwf Hv; simpl; munfold.
  - by intros [= <- <-].
  - destruct (wrapStep v ch s) as [v1 s1| |] eqn:Hstep; [|done..].
    intros Hrest.
    destruct (wrapStep_result s v ch v1 s1 Hwf Hstep) as (c & Hf & ->).
    destruct (factory_result c s v v1 s1 Hwf Hf)
      as (k & wl & -> & -> & Ha & Hwf1 & Hext1 & _ & Hw).
    destruct (IH s1 (VRef wl) w s' Hwf1) as [-> ->];
      [by eapply lookup_lt_Some|done|].
    rewrite (isInputType_wrapper _ _ _ _ (wf_types s1 Hwf1) Hw).
    rewrite (isOutputType_wrapper _ _ _ _ (wf_types s1 Hwf1) Hw).
    split.
    + apply isInputType_later; [apply (wf_types s Hwf)|apply Hext1|done].
    + apply isOutputType_later; [apply (wf_types s Hwf)|apply Hext1|done].
Qed.

(** Two runs of [reduce] from one named type that end on one instance
    went along the same markers. *)
Lemma reduce_injective X l1 : ∀ l2 s w sA sB sC,
  wf s → isNamedType (heap s) X = true →
  reduce wrapStep l1 X s = Return w sA →
  wf sB → extends sA sB →
  reduce wrapStep l2 X sB = Return w sC →
  l1 = l2.
Proof.
  assert (∀ s s' c t wl, isNamedType (heap s) X = true →
            heap s `prefix_of` heap s' →
            heap s' !! wl = Some (wrapperObj c t) → X ≠ VRef wl) as Hnamed.
  { intros s s' c t wl HX Hpre Hw ->.
    unfold isNamedType, isWrappingType, isType, isScalarType, isObjectType,
      isInterfaceType, isUnionType, isEnumType, isInputObjectType,
      isListType, isNonNullType in HX.
    destruct (deref (heap s) (VRef wl)) as [o|] eqn:Hd; [|done].
    pose proof (deref_prefix _ _ _ _ Hpre Hd) as Hd'. simpl in Hd'.
    rewrite Hw in Hd'. injection Hd' as <-. by destruct c. }
  induction l1 as [|c1 l1 IH] using rev_ind;
    intros l2 s w sA sB sC Hwf HX H1 HwfB HextB H2.
  - simpl in H1. injection H1 as <- <-.
    destruct l2 as [|c2 l2 _] using rev_ind; [done|]. exfalso.
    destruct (reduce_snoc_result l2 c2 sB X _ sC HwfB H2)
      as (t & s0 & c & wl & _ & _ & [Hh0 _] & _ & _ & _ & Heq & Hw & _ & [Hh _]).
    apply (Hnamed s sC c t wl HX); [|done|done].
    etrans; [apply HextB|]. by etrans.
  - destruct (reduce_snoc_result l1 c1 s X w sA Hwf H1)
      as (t & s0 & c & wl & Hl1 & Hwf0 & Hext0 & -> & _ & _ & -> & Hw & _ & Hext0A).
    destruct l2 as [|c2 l2 _] using rev_ind.
    + exfalso. simpl in H2. injection H2 as HXw _.
      apply (Hnamed s sA c t wl HX); [|done|done].
      etrans; [apply Hext0|apply Hext0A].
    + destruct (reduce_snoc_result l2 c2 sB X _ sC HwfB H2)
        as (t' & s0' & c' & wl' & Hl2 & Hwf0' & Hext0' & -> & _ & _ & [= <-]
            & Hw' & _ & Hext0C).
      assert (heap sC !! wl = Some (wrapperObj c t)) as HwC.
      { apply (deref_prefix (heap sA) _ (VRef wl)); [|done].
        etrans; [apply HextB|]. etrans; [apply Hext0'|apply Hext0C]. }
      rewrite HwC in Hw'. injection Hw' as Heq.
      apply wrapperObj_inj in Heq as [<- <-].
      f_equal.
      apply (IH l2 s t s0 sB s0'); try done.
      by eapply extends_trans.
Qed.

End Specs.

(** X8. [wrapType] composes along the spec: for non-empty [S1] and [S2],
    on every store, [wrapType(v, S1 + S2)] does what [wrapType(v, S1)]
    followed by [wrapType] of its result with [S2] does: the same
    result, the same store, and the same throw if either part throws. *)
Theorem X8_wrapType_append v S1 S2 s :
  S1 ≠ "" → S2 ≠ "" →
  wrapType v (S1 +:+ S2) s = (t ← wrapType v S1; wrapType t S2) s.
Proof.
  intros H1 H2.
  rewrite wrapType_reduce by (by apply append_nonempty).
  rewrite list_ascii_of_string_app, reduce_app. munfold.
  rewrite (wrapType_reduce v S1 s H1).
  destruct (reduce wrapStep (list_ascii_of_string S1) v s) as [t s1| |];
    [|done..].
  by rewrite wrapType_reduce.
Qed.

Lemma X8_wrapType_append_witness :
  wrapType (VRef 0) ("!]" +:+ "]!") twoObjects
  = (t ← wrapType (VRef 0) "!]"; wrapType t "]!") twoObjects.
Proof. apply (X8_wrapType_append (VRef 0) "!]" "]!" twoObjects); done. Defined.

(** X9. [wrapType] is memoised like the factories it calls: on every
    reachable store, once [wrapType(X, S)] has returned [w], every later
    call [wrapType(X, S)], whatever calls were made in between, returns
    the same instance [w] and leaves the store as it finds it. *)
Theorem X9_wrapType_memoised s X S w s1 cs s2 :
  reachable s → wrapType X S s = Return w s1 →
  afterAll cs s1 = Some s2 →
  wrapType X S s2 = Return w s2.
Proof.
  intros Hs%reachable_wf Hrun Hcs.
  destruct (decide (S = "")) as [->|Hne]; [done|].
  rewrite wrapType_reduce in Hrun |- * by done.
  pose proof (sound_reduce (list_ascii_of_string S) X s Hs) as Hr.
  rewrite Hrun in Hr. destruct Hr as (Hwf1 & _ & _).
  destruct (afterAll_wf cs s1 s2 Hwf1 Hcs) as [Hwf2 Hext2].
  by apply (reduce_again _ s X w s1 s2).
Qed.

Lemma X9_wrapType_memoised_witness :
  ∃ w s1 s2,
    wrapType (VRef 0) "!]!" twoObjects = Return w s1 ∧
    afterAll [CNewGraphQLList (VRef 0); CWrapType (VRef 1) "]]"] s1 = Some s2 ∧
    wrapType (VRef 0) "!]!" s2 = Return w s2.
Proof.
  eexists _, _, _. split; [vm_compute; reflexivity|].
  split; [vm_compute; reflexivity|].
  eapply (X9_wrapType_memoised twoObjects (VRef 0) "!]!" _ _
            [CNewGraphQLList (VRef 0); CWrapType (VRef 1) "]]"]).
  - reach [CNewNamedType Object "A"; CNewNamedType Object "A"].
  - vm_compute; reflexivity.
  - vm_compute; reflexivity.
Defined.

(** X10. The specs [wrapType] accepts: on every reachable store and for
    every type [X], [wrapType(X, S)] returns exactly when [S] is not
    empty, holds only [']'] and ['!'], and asks for no [GraphQLNonNull]
    of a [GraphQLNonNull]: no ['!'] right after a ['!'], nor first when
    [X] is itself non-null.  Every other spec makes it throw. *)
Theorem X10_wrapType_accepts_exactly s X S :
  reachable s → isType (heap s) X = true →
  ((∃ w s', wrapType X S s = Return w s') ↔
   S ≠ "" ∧
   legalMarkers (isNonNullType (heap s) X) (list_ascii_of_string S) = true) ∧
  ((∃ e s', wrapType X S s = Throw e s') ↔
   ¬ (S ≠ "" ∧
      legalMarkers (isNonNullType (heap s) X) (list_ascii_of_string S) = true)).
Proof.
  intros Hs%reachable_wf HX.
  assert ((∃ w s', wrapType X S s = Return w s') ↔
          S ≠ "" ∧
          legalMarkers (isNonNullType (heap s) X) (list_ascii_of_string S) = true)
    as Hret.
  { split.
    - intros (w & s' & Hrun).
      destruct (decide (S = "")) as [->|Hne]; [done|]. split; [done|].
      rewrite wrapType_reduce in Hrun by done.
      by eapply reduce_returns_legal.
    - intros [Hne Hlegal]. rewrite wrapType_reduce by done.
      by apply reduce_legal. }
  split; [exact Hret|].
  pose proof (sound_wrapType X S s Hs) as Hsound.
  split.
  - intros (e & s' & Hthrow) Hok. apply Hret in Hok as (w & s'' & Hrun).
    congruence.
  - intros Hnot. destruct (wrapType X S s) as [w s'|e s'|] eqn:Hrun.
    + exfalso. apply Hnot, Hret. by exists w, s'.
    + by exists e, s'.
    + exfalso. apply Hsound. by apply isType_valid.
Qed.

Lemma X10_wrapType_accepts_exactly_witness :
  (∃ w s', wrapType (VRef 1) "]!" objectAndNonNull = Return w s') ∧
  (∃ e s', wrapType (VRef 1) "!" objectAndNonNull = Throw e s') ∧
  (∃ e s', wrapType (VRef 0) "]!!" objectAndNonNull = Throw e s').
Proof.
  assert (reachable objectAndNonNull) as Hr
    by reach [CNewNamedType Object "Object"; CGraphQLNonNull (VRef 0)].
  split; [|split].
  - apply (X10_wrapType_accepts_exactly objectAndNonNull (VRef 1) "]!" Hr eq_refl).
    split; [done|reflexivity].
  - apply (X10_wrapType_accepts_exactly objectAndNonNull (VRef 1) "!" Hr eq_refl).
    intros [_ H]. vm_compute in H. discriminate H.
  - apply (X10_wrapType_accepts_exactly objectAndNonNull (VRef 0) "]!!" Hr eq_refl).
    intros [_ H]. vm_compute in H. discriminate H.
Defined.

(** X11. A failed [wrapType] is not undone: when [wrapType(X, S)]
    returns, leaving store [s1], and [ch] is no marker, then
    [wrapType(X, S + ch + rest)] throws
    ["Invalid wrapSpec character: " + ch] and leaves that same store
    [s1]; the wrappers made for [S] stay in the cache, so on a reachable
    store a later [wrapType(X, S)] finds them. *)
Theorem X11_wrapType_failure_keeps_prefix s X S ch rest w s1 :
  isMarker ch = false → wrapType X S s = Return w s1 →
  wrapType X (S +:+ String ch rest) s =
  Throw (Error ("Invalid wrapSpec character: " +:+ String ch "")) s1 ∧
  (reachable s → wrapType X S s1 = Return w s1).
Proof.
  intros Hch Hrun.
  assert (S ≠ "") as Hne by (by intros ->).
  split.
  - rewrite wrapType_reduce by (by apply append_nonempty).
    rewrite list_ascii_of_string_app, reduce_app. munfold.
    rewrite <- (wrapType_reduce X S s Hne), Hrun. simpl. munfold.
    rewrite wrapStep_marker. unfold isMarker in Hch.
    by apply orb_false_iff in Hch as [-> ->].
  - intros Hs%reachable_wf.
    rewrite wrapType_reduce in Hrun |- * by done.
    pose proof (sound_reduce (list_ascii_of_string S) X s Hs) as Hr.
    rewrite Hrun in Hr. destruct Hr as (Hwf1 & _ & _).
    apply (reduce_again _ s X w s1 s1); [done..|apply extends_refl].
Qed.

Lemma X11_wrapType_failure_keeps_prefix_witness :
  ∃ w s1,
    wrapType (VRef 0) "!]" twoObjects = Return w s1 ∧
    s1 ≠ twoObjects ∧
    wrapType (VRef 0) ("!]" +:+ "x!") twoObjects =
    Throw (Error "Invalid wrapSpec character: x") s1 ∧
    wrapType (VRef 0) "!]" s1 = Return w s1.
Proof.
  eexists _, _. split; [vm_compute; reflexivity|].
  split; [intros H; apply (f_equal heap) in H; vm_compute in H; discriminate H|].
  edestruct (X11_wrapType_failure_keeps_prefix twoObjects (VRef 0) "!]"
               "x"%char "!") as [Hthrow Hagain];
    [reflexivity|vm_compute; reflexivity|].
  split; [exact Hthrow|]. apply Hagain.
  reach [CNewNamedType Object "A"; CNewNamedType Object "A"].
Defined.

(** X12. The rendering of what [wrapType] returns: on every reachable
    store, if [X] renders as [r] and [wrapType(X, S)] returns [w], then
    [w] renders as [r] with, for each marker of [S] in order, brackets
    put around it for [']'] and a ["!"] put after it for ['!']. *)
Theorem X12_wrapType_rendering s X S r w s' :
  reachable s → JsString (heap s) X = Some r →
  wrapType X S s = Return w s' →
  JsString (heap s') w = Some (renderMarkers (list_ascii_of_string S) r).
Proof.
  intros Hs%reachable_wf Hr Hrun.
  destruct (decide (S = "")) as [->|Hne]; [done|].
  rewrite wrapType_reduce in Hrun by done.
  by apply (reduce_render _ s X).
Qed.

Lemma X12_wrapType_rendering_witness :
  ∃ w s', wrapType (VRef 0) "!]!" objectAndNonNull = Return w s' ∧
          JsString (heap s') w = Some "[Object!]!".
Proof.
  eexists _, _. split; [vm_compute; reflexivity|].
  apply (X12_wrapType_rendering objectAndNonNull (VRef 0) "!]!" "Object").
  - reach [CNewNamedType Object "Object"; CGraphQLNonNull (VRef 0)].
  - reflexivity.
  - vm_compute; reflexivity.
Defined.

(** X13. The last marker decides what [wrapType] returns: on every
    reachable store, if [wrapType(X, S + ch)] returns [w] (with [S]
    possibly empty), then [w] is a [GraphQLList] whose [ofType] is a type
    exactly when [ch] is [']'] and a [GraphQLNonNull] exactly when [ch]
    is ['!']; it is a wrapping type and none of the six named
    variants. *)
Theorem X13_last_marker_is_outermost s X S ch w s' :
  reachable s → wrapType X (S +:+ String ch "") s = Return w s' →
  isListType (heap s') w = Ascii.eqb ch "]" ∧
  isNonNullType (heap s') w = Ascii.eqb ch "!" ∧
  isWrappingType (heap s') w = true ∧
  isNamedType (heap s') w = false ∧
  ∃ t, (deref (heap s') w = Some (OList t) ∨
        deref (heap s') w = Some (ONonNull t)) ∧
       isType (heap s') t = true.
Proof.
  intros Hs%reachable_wf Hrun.
  rewrite wrapType_reduce in Hrun.
  2: { destruct S; [done|]. by rewrite append_cons. }
  rewrite list_ascii_of_string_app in Hrun. simpl in Hrun.
  destruct (reduce_snoc_result _ ch s X w s' Hs Hrun)
    as (t & s0 & c & wl & _ & Hwf0 & _ & -> & _ & Ha & -> & Hw & _ & [[e He] _]).
  unfold isNamedType, isWrappingType, isListType, isNonNullType.
  simpl deref. rewrite Hw.
  assert (isType (heap s') t = true) as Hty.
  { rewrite He. apply isType_app. by eapply accepts_isType. }
  destruct c; simpl; rewrite ?andb_false_r.
  - do 4 (split; [done|]). exists t. split; [by left|done].
  - do 4 (split; [done|]). exists t. split; [by right|done].
Qed.

Lemma X13_last_marker_is_outermost_witness :
  ∃ w s', wrapType (VRef 0) ("]" +:+ "!") twoObjects = Return w s' ∧
    isListType (heap s') w = false ∧
    isNonNullType (heap s') w = true ∧
    isWrappingType (heap s') w = true ∧
    isNamedType (heap s') w = false.
Proof.
  eexists _, _. split; [vm_compute; reflexivity|].
  edestruct (X13_last_marker_is_outermost twoObjects (VRef 0) "]" "!"%char)
    as (HL & HN & HW & HNamed & _).
  - reach [CNewNamedType Object "A"; CNewNamedType Object "A"].
  - vm_compute; reflexivity.
  - split; [exact HL|]. split; [exact HN|]. split; [exact HW|exact HNamed].
Defined.

(** X14. Different specs give different types: on every reachable store
    and for a named type [X], if [wrapType(X, S1)] and a later
    [wrapType(X, S2)] return the same instance, then [S1 = S2]. *)
Theorem X14_wrapType_injective s X S1 S2 w s1 cs s2 s3 :
  reachable s → isNamedType (heap s) X = true →
  wrapType X S1 s = Return w s1 → afterAll cs s1 = Some s2 →
  wrapType X S2 s2 = Return w s3 →
  S1 = S2.
Proof.
  intros Hs%reachable_wf HX H1 Hcs H2.
  destruct (decide (S1 = "")) as [->|Hne1]; [done|].
  destruct (decide (S2 = "")) as [->|Hne2]; [done|].
  rewrite wrapType_reduce in H1, H2 by done.
  pose proof (sound_reduce (list_ascii_of_string S1) X s Hs) as Hr.
  rewrite H1 in Hr. destruct Hr as (Hwf1 & _ & _).
  destruct (afterAll_wf cs s1 s2 Hwf1 Hcs) as [Hwf2 Hext2].
  apply list_ascii_of_string_inj.
  by apply (reduce_injective X _ _ s w s1 s2 s3).
Qed.

Lemma X14_wrapType_injective_witness :
  ∃ w s1,
    wrapType (VRef 0) "]" twoObjects = Return w s1 ∧
    wrapType (VRef 0) "]" s1 = Return w s1 ∧
    "]" = "]".
Proof.
  eexists _, _. split; [vm_compute; reflexivity|].
  split; [vm_compute; reflexivity|].
  eapply (X14_wrapType_injective twoObjects (VRef 0) "]" "]" _ _ []).
  - reach [CNewNamedType Object "A"; CNewNamedType Object "A"].
  - reflexivity.
  - vm_compute; reflexivity.
  - reflexivity.
  - vm_compute; reflexivity.
Defined.

(** X15. Wrapping keeps the category: on every reachable store, if
    [wrapType(X, S)] returns [w], then [w] is an input type exactly when
    [X] is, and an output type exactly when [X] is, whatever the
    markers. *)
Theorem X15_wrapping_keeps_category s X S w s' :
  reachable s → valid (heap s) X → wrapType X S s = Return w s' →
  isInputType (heap s') w = isInputType (heap s) X ∧
  isOutputType (heap s') w = isOutputType (heap s) X ∧
  ∃ b b', isInputType (heap s) X = Some b ∧ isOutputType (heap s) X = Some b'.
Proof.
  intros Hs%reachable_wf Hv Hrun.
  destruct (decide (S = "")) as [->|Hne]; [done|].
  rewrite wrapType_reduce in Hrun by done.
  destruct (reduce_category _ s X w s' Hs Hv Hrun) as [Hin Hout].
  split; [done|]. split; [done|].
  destruct (isInputType_total _ (wf_types s Hs) X) as [b Hb].
  destruct (isOutputType_total _ (wf_types s Hs) X) as [b' Hb'].
  by exists b, b'.
Qed.

Lemma X15_wrapping_keeps_category_witness :
  ∃ w s', wrapType (VRef 0) "]!]" oneInputObject = Return w s' ∧
    isInputType (heap s') w = Some true ∧
    isOutputType (heap s') w = Some false.
Proof.
  eexists _, _. split; [vm_compute; reflexivity|].
  edestruct (X15_wrapping_keeps_category oneInputObject (VRef 0) "]!]")
    as (Hin & Hout & _).
  - reach [CNewNamedType InputObject "InputObject"].
  - vm_compute. lia.
  - vm_compute; reflexivity.
  - split; [exact Hin|exact Hout].
Defined.
